(** * A shallow embedding of [src/bpe.js]

    The file models the three classes of the tokenizer, [Trie], [MaxHeap] and
    [BPE], as Rocq functions, and proves properties of them.

    Conventions of the embedding:
    - a JavaScript string is the list of its UTF-16 code units;
    - [for (const char of word)] visits code points, so a well-formed
      surrogate pair is one [char] of two code units;
    - a plain object used as a dictionary is a finite map (or, where
      [Object.entries] order matters, an ordered association list) together
      with the properties it inherits from [Object.prototype];
    - an array is a list; a read out of range yields [undefined];
    - a method that can throw returns a [completion]. *)

From Stdlib Require Import String Ascii.
From stdpp Require Import gmap list sorting.
From Equations Require Import Equations.
From Equations.Prop Require Import Logic.


(** ** JavaScript strings *)

Abbreviation jsstring := (list N).

(** The code units of an ASCII literal. *)
Definition str (s : string) : jsstring :=
  List.map N_of_ascii (list_ascii_of_string s).
Arguments str s%_string.

Module JS.

Definition is_high_surrogate (u : N) : bool :=
  ((0xD800 <=? u) && (u <=? 0xDBFF))%N.
Definition is_low_surrogate (u : N) : bool :=
  ((0xDC00 <=? u) && (u <=? 0xDFFF))%N.

(** The strings produced by the string iterator ([for ... of]): one per
    code point; a surrogate that is not part of a pair is produced alone. *)
Fixpoint chars (s : jsstring) : list jsstring :=
  match s with
  | [] => []
  | first :: rest =>
      match rest with
      | second :: rest' =>
          if is_high_surrogate first && is_low_surrogate second
          then [first; second] :: chars rest'
          else [first] :: chars rest
      | [] => [[first]]
      end
  end.

(** [s.replace(/%/g, '')] *)
Definition percent : N := 37%N.
Definition replace_all_percent (s : jsstring) : jsstring :=
  filter (λ u, u ≠ percent) s.

(** [s.replace('%', '')]: only the first occurrence is removed. *)
Fixpoint replace_first_percent (s : jsstring) : jsstring :=
  match s with
  | [] => []
  | u :: rest => if decide (u = percent) then rest else u :: replace_first_percent rest
  end.

(** [s.split('')]: one string per code unit. *)
Definition split_units (s : jsstring) : list jsstring := (λ u, [u]) <$> s.

(** The values the program handles. [VObj] stands for any object or
    function: the program never looks inside one. *)
Inductive value :=
| VUndefined
| VNull
| VBool (b : bool)
| VNum (n : Z)
| VStr (s : jsstring)
| VObj.

Definition is_string (v : value) : bool :=
  match v with VStr _ => true | _ => false end.

(** Numbers as the heap sees them: integers and [NaN]. *)
Inductive jsnum := Num (z : Z) | NaN.

Definition neg (x : jsnum) : jsnum :=
  match x with Num z => Num (- z) | NaN => NaN end.
Definition num_ge (x y : jsnum) : bool :=
  match x, y with Num a, Num b => bool_decide (b ≤ a)%Z | _, _ => false end.
Definition num_gt (x y : jsnum) : bool :=
  match x, y with Num a, Num b => bool_decide (b < a)%Z | _, _ => false end.

Inductive error :=
| Error (message : jsstring)
| TypeError.

Inductive completion (A : Type) :=
| Normal (a : A)
| Throw (e : error).
Arguments Normal {A} a.
Arguments Throw {A} e.

#[global] Instance completion_fmap : FMap completion := λ A B f c,
  match c with Normal a => Normal (f a) | Throw e => Throw e end.
#[global] Instance completion_ret : MRet completion := λ A a, Normal a.
#[global] Instance completion_bind : MBind completion := λ A B f c,
  match c with Normal a => f a | Throw e => Throw e end.

(** The names every plain object inherits from [Object.prototype]. All are
    methods (objects), except [__proto__], an accessor whose setter ignores
    a value that is neither an object nor [null]. *)
Definition object_prototype_keys : list jsstring :=
  str <$> [ "constructor"; "__defineGetter__"; "__defineSetter__";
            "hasOwnProperty"; "__lookupGetter__"; "__lookupSetter__";
            "isPrototypeOf"; "propertyIsEnumerable"; "toString"; "valueOf";
            "__proto__"; "toLocaleString" ]%string.

Definition inherited (key : jsstring) : bool :=
  bool_decide (key ∈ object_prototype_keys).

Definition proto_key : jsstring := str "__proto__".

End JS.

(** ** class TrieNode, class Trie *)

Module Trie.
Import JS.

#[warnings="-register-all"]
Inductive TrieNode := mkNode {
  children : gmap jsstring TrieNode;
  isEndOfWord : bool;
  value : JS.value
}.

(** [new TrieNode()] *)
Definition new_TrieNode : TrieNode := mkNode ∅ false VNull.

Record Trie := mkTrie { root : TrieNode }.

(** [new Trie()] *)
Definition new : Trie := mkTrie new_TrieNode.

(** The body of [insert], started at [node]. A key of [children] is one
    code point, and no name of [Object.prototype] is that short, so
    [node.children[char]] is the node stored under [char] or [undefined]. *)
Fixpoint insert_at (node : TrieNode) (cs : list jsstring) (v : JS.value) : TrieNode :=
  match cs with
  | [] => mkNode (children node) true v
  | char :: rest =>
      let child := default new_TrieNode (children node !! char) in
      mkNode (<[char := insert_at child rest v]> (children node))
             (isEndOfWord node) (value node)
  end.

Definition insert (t : Trie) (word : jsstring) (v : JS.value) : Trie :=
  mkTrie (insert_at (root t) (chars word) v).

(** The loop of [longestPrefixMatch] with its three variables. *)
Fixpoint lpm_loop (node : TrieNode) (lastMatch : option jsstring)
    (currentPrefix : jsstring) (cs : list jsstring) : option jsstring :=
  match cs with
  | [] => lastMatch
  | char :: rest =>
      match children node !! char with
      | None => lastMatch
      | Some child =>
          let currentPrefix := currentPrefix ++ char in
          lpm_loop child
            (if isEndOfWord child then Some currentPrefix else lastMatch)
            currentPrefix rest
      end
  end.

(** [None] is [null]. *)
Definition longestPrefixMatch (t : Trie) (word : jsstring) : option jsstring :=
  lpm_loop (root t) None [] (chars word).

End Trie.

(** ** class MaxHeap *)

Module MaxHeap.
Import JS.

Section MaxHeap.
(** An item is the array [[priority, payload]]. The class compares
    [item[0]] with [>=] and [>]; these are the two parameters. *)
Context {P X : Type} (geb gtb : P → P → bool).

Definition isEmpty (heap : list (P * X)) : bool :=
  bool_decide (length heap = 0).

(** [this.heap[i][0]]; on an index out of range JavaScript reads a
    property of [undefined], a [TypeError]. *)
Definition priority (heap : list (P * X)) (i : nat) : completion P :=
  match heap !! i with
  | Some item => Normal item.1
  | None => Throw TypeError
  end.

(** [[this.heap[i], this.heap[j]] = [this.heap[j], this.heap[i]]].
    Both callers have read [this.heap[i][0]] and [this.heap[j][0]] just
    before, which throws on an index out of range: the last line stands for
    a case that is not reached. *)
Definition swap (heap : list (P * X)) (i j : nat) : completion (list (P * X)) :=
  match heap !! j, heap !! i with
  | Some b, Some a => Normal (<[j := a]> (<[i := b]> heap))
  | _, _ => Throw TypeError
  end.

(** The test of the [if] inside the loop of [bubbleUp]. *)
Definition parent_wins (heap : list (P * X)) (parentIndex index : nat) : completion bool :=
  p ← priority heap parentIndex;
  c ← priority heap index;
  mret (geb p c).

Equations? bubbleUp (heap : list (P * X)) (index : nat)
    : completion (list (P * X)) by wf index lt :=
  bubbleUp heap index with decide (0 < index) := {
    | right _ => Normal heap;
    | left Hpos with parent_wins heap ((index - 1) / 2) index := {
        | Throw e => Throw e;
        | Normal true => Normal heap;
        | Normal false with swap heap ((index - 1) / 2) index := {
            | Normal heap' => bubbleUp heap' ((index - 1) / 2);
            | Throw e => Throw e } } }.
Proof. change ((index - 1) / 2 < index). apply Nat.Div0.div_lt_upper_bound. lia. Qed.

(** One of the two [if] statements in the loop of [bubbleDown]:
    [if (child < this.heap.length && this.heap[child][0] > this.heap[largest][0])
       largest = child;] *)
Definition pick (heap : list (P * X)) (child largest : nat) : completion nat :=
  if bool_decide (child < length heap) then
    a ← priority heap child;
    b ← priority heap largest;
    mret (if gtb a b then child else largest)
  else mret largest.

(** The value of [largest] at the test [largest === index]. *)
Definition largest_of (heap : list (P * X)) (index : nat) : completion nat :=
  let leftChild := 2 * index + 1 in
  let rightChild := 2 * index + 2 in
  largest ← pick heap leftChild index;
  pick heap rightChild largest.

Equations? bubbleDown (heap : list (P * X)) (index : nat)
    : completion (list (P * X)) by wf (length heap - index) lt :=
  bubbleDown heap index with inspect (largest_of heap index) := {
    | exist _ (Throw e) _ => Throw e;
    | exist _ (Normal largest) Hl with decide (largest = index) := {
        | left _ => Normal heap;
        | right Hne with inspect (swap heap index largest) := {
            | exist _ (Normal heap') Hs => bubbleDown heap' largest;
            | exist _ (Throw e) _ => Throw e } } }.
Proof.
  assert (∀ child l r, pick heap child l = Normal r →
                       r = l ∨ (r = child ∧ child < length heap)) as Hpick.
  { intros child l r. unfold pick, priority.
    case_bool_decide; [|by intros [= ->]; left].
    destruct (heap !! child); [|done]. destruct (heap !! l); [|done]. cbn.
    destruct (gtb _ _); intros [= <-]; auto. }
  assert (index < largest < length heap) as Hrange.
  { unfold largest_of in Hl.
    destruct (pick heap (2 * index + 1) index) as [l|] eqn:Hl1; [|done].
    cbn in Hl. apply Hpick in Hl1, Hl. lia. }
  unfold swap in Hs.
  destruct (heap !! largest); [|done]. destruct (heap !! index); [|done].
  injection Hs as <-. rewrite !length_insert. lia.
Qed.

(** [this.heap.push(item); this.bubbleUp(this.heap.length - 1)] *)
Definition insert (heap : list (P * X)) (item : P * X) : completion (list (P * X)) :=
  let heap := heap ++ [item] in
  bubbleUp heap (length heap - 1).

Definition extractMax (heap : list (P * X)) : completion ((P * X) * list (P * X)) :=
  match heap with
  | [] => Throw (Error (str "Heap is empty"))
  | max :: _ =>
      let last := List.last heap max in
      let heap := removelast heap in
      if bool_decide (0 < length heap) then
        heap ← bubbleDown (<[0 := last]> heap) 0;
        mret (max, heap)
      else mret (max, heap)
  end.

End MaxHeap.
End MaxHeap.

(** ** class BPE *)

Module BPE.
Import JS.

(** The fields of a [BPE] object. [model] is the vocabulary: token text to
    id (the vocabulary file holds integers). *)
Record BPE := mkBPE {
  model_name : jsstring;
  verbose : bool;
  trained : bool;
  model : gmap jsstring Z;
  trie : Trie.Trie
}.

(** The vocabulary file [model_name]: absent, or the object stored in it. *)
Abbreviation file := (option (gmap jsstring Z)).

Definition _load_vocabulary (f : file) : bool * gmap jsstring Z :=
  match f with
  | Some stored => (true, stored)
  | None => (false, ∅)
  end.

(** The loop of the constructor over the entries of the vocabulary. *)
Definition load_trie (entries : list (jsstring * Z)) : Trie.Trie :=
  foldl (λ t '(key, id), Trie.insert t key (VNum id)) Trie.new entries.

(** [new BPE(model_name, verbose)]. The entries are taken in the order of
    the finite map, not in the order of [Object.entries]: the trie is the
    same for every order ([load_trie_order] below). *)
Definition new (model_name : jsstring) (verbose : bool) (f : file) : BPE :=
  let '(trained, model) := _load_vocabulary f in
  mkBPE model_name verbose trained model (load_trie (map_to_list model)).

(** *** tokenize *)

(** One round of the [while] loop at position [i], where [unit] is the
    code unit [data[i]]: the new value of [i] and the token pushed.
    [if (longestMatch)] holds for a string that is not empty. *)
Definition tokenize_round (t : Trie.Trie) (data : jsstring) (i : nat) (unit : N)
    : nat * jsstring :=
  match Trie.longestPrefixMatch t (drop i data) with
  | Some (u :: us) => (i + length (u :: us), u :: us)
  | _ => (i + 1, [unit])
  end.

(** The [while] loop. [data !! i] is [None] exactly when the test
    [i < data.length] fails. The result [None] says that the loop is still
    running after [fuel] rounds. *)
Fixpoint tokenize_loop (fuel : nat) (t : Trie.Trie) (data : jsstring)
    (i : nat) (tokens : list jsstring) : option (list jsstring) :=
  match data !! i with
  | None => Some tokens
  | Some unit =>
      match fuel with
      | 0 => None
      | S fuel =>
          let '(i', tok) := tokenize_round t data i unit in
          tokenize_loop fuel t data i' (tokens ++ [tok])
      end
  end.

Definition tokenize (this : BPE) (data : jsstring) : option (list jsstring) :=
  tokenize_loop (length data) (trie this) data 0 [].

(** *** Arrays and objects of [train] *)

(** An element of [tokens]; [None] is [undefined]. *)
Abbreviation token := (option jsstring).

(** [tokens[i]] *)
Definition token_at (tokens : list token) (i : nat) : token :=
  default None (tokens !! i).

(** [tokens[i] = s]; past the end the array grows, with holes. *)
Definition token_set (tokens : list token) (i : nat) (s : jsstring) : list token :=
  if bool_decide (i < length tokens) then <[i := Some s]> tokens
  else tokens ++ replicate (i - length tokens) None ++ [Some s].

(** [tokens.splice(i, 1)] *)
Definition splice1 (tokens : list token) (i : nat) : list token := delete i tokens.

(** The value of [a + b] for two elements of [tokens]. *)
Inductive pairval := PStr (s : jsstring) | PNaN.

#[global] Instance pairval_eq_dec : EqDecision pairval.
Proof. solve_decision. Defined.

Definition add (a b : token) : pairval :=
  match a, b with
  | None, None => PNaN
  | _, _ => PStr (default (str "undefined") a ++ default (str "undefined") b)
  end.

(** The property name a value of [a + b] denotes. *)
Definition key_of (p : pairval) : jsstring :=
  match p with PStr s => s | PNaN => str "NaN" end.

(** A value stored in [pairFreqs]: a number, or the string that [x + 1]
    gives when [x] is a function, an object or such a string. *)
Inductive freqval := FCount (n : Z) | FText.

(** [pairFreqs], its own properties in creation order. *)
Abbreviation freqs := (list (jsstring * freqval)).

Fixpoint own (o : freqs) (key : jsstring) : option freqval :=
  match o with
  | [] => None
  | (k, v) :: o' => if decide (k = key) then Some v else own o' key
  end.

Fixpoint put (o : freqs) (key : jsstring) (v : freqval) : freqs :=
  match o with
  | [] => [(key, v)]
  | (k, w) :: o' => if decide (k = key) then (k, v) :: o' else (k, w) :: put o' key v
  end.

(** [(pairFreqs[key] || 0) + 1] *)
Definition plus_one (o : freqs) (key : jsstring) : freqval :=
  match own o key with
  | Some (FCount n) => FCount (n + 1)
  | Some FText => FText
  | None => if inherited key then FText else FCount 1
  end.

(** [pairFreqs[key] = v], for [v] a number or a string. *)
Definition assign (o : freqs) (key : jsstring) (v : freqval) : freqs :=
  match own o key with
  | Some _ => put o key v
  | None => if decide (key = proto_key) then o else put o key v
  end.

(** [pairFreqs[key] = (pairFreqs[key] || 0) + 1] *)
Definition increment (o : freqs) (key : jsstring) : freqs :=
  assign o key (plus_one o key).

(** [-pairFreqs[key]] *)
Definition minus (o : freqs) (key : jsstring) : jsnum :=
  match own o key with
  | Some (FCount n) => Num (- n)
  | _ => NaN
  end.

(** [-freq] for a value of [Object.entries(pairFreqs)] *)
Definition minus_val (v : freqval) : jsnum :=
  match v with FCount n => Num (- n) | FText => NaN end.

(** An array index: the decimal numeral, without a leading zero, of an
    integer below [2^32 - 1]. *)
Definition digit (u : N) : option N :=
  if ((48 <=? u) && (u <=? 57))%N then Some (u - 48)%N else None.

Definition numeral (key : jsstring) : option N :=
  foldl (λ acc u, n ← acc; d ← digit u; Some (n * 10 + d)%N) (Some 0%N) key.

Definition array_index (key : jsstring) : option N :=
  match key with
  | [] => None
  | u :: rest =>
      if decide (u = 48%N ∧ rest ≠ []) then None
      else n ← numeral key; if decide (n < 2 ^ 32 - 1)%N then Some n else None
  end.

Definition index_le (a b : N * (jsstring * freqval)) : Prop := (a.1 ≤ b.1)%N.

#[global] Instance index_le_dec : RelDecision index_le.
Proof. intros a b. unfold index_le. apply _. Defined.

(** [Object.entries(o)]: the array indices in ascending order, then the
    other names in creation order. *)
Definition entries (o : freqs) : freqs :=
  let indexed := omap (λ kv, i ← array_index kv.1; Some (i, kv)) o in
  (snd <$> merge_sort index_le indexed)
  ++ filter (λ kv, array_index kv.1 = None) o.

(** [this.model[key] = id] on the vocabulary object. *)
Definition model_assign (m : gmap jsstring Z) (key : jsstring) (id : Z) : gmap jsstring Z :=
  match m !! key with
  | Some _ => <[key := id]> m
  | None => if decide (key = proto_key) then m else <[key := id]> m
  end.

(** [this.model[key]] *)
Definition model_read (m : gmap jsstring Z) (key : jsstring) : value :=
  match m !! key with
  | Some id => VNum id
  | None => if inherited key then VObj else VUndefined
  end.

(** *** train *)

#[global] Instance jsnum_eq_dec : EqDecision jsnum.
Proof. solve_decision. Defined.

(** The local variables of [train] that outlive one statement. *)
Record locals := mkLocals {
  tokens : list token;
  pairFreqs : freqs;
  tokenPairs : list (nat * nat);
  heap : list (jsnum * pairval)
}.

(** The first [for] loop: the pairs of the initial tokens. *)
Definition count_pairs (tokens : list token) : freqs * list (nat * nat) :=
  foldl (λ '(pairFreqs, tokenPairs) i,
           let pair' := add (token_at tokens i) (token_at tokens (i + 1)) in
           (increment pairFreqs (key_of pair'), tokenPairs ++ [(i, i + 1)]))
        ([], []) (seq 0 (length tokens - 1)).

(** The second [for] loop: one heap item per entry of [pairFreqs]. *)
Definition seed (pairFreqs : freqs) : completion (list (jsnum * pairval)) :=
  foldl (λ h '(pair', freq),
           h ← h; MaxHeap.insert num_ge h (minus_val freq, PStr pair'))
        (Normal []) (entries pairFreqs).

(** [train] from the [replace] up to the main loop. *)
Definition start (corpus : jsstring) : completion locals :=
  let tokens := Some <$> split_units (replace_all_percent corpus) in
  let '(pairFreqs, tokenPairs) := count_pairs tokens in
  h ← seed pairFreqs;
  mret (mkLocals tokens pairFreqs tokenPairs h).

(** The four statements that count a neighbouring pair, push it on the
    heap and record its two indices. *)
Definition count_and_push (l : locals) (newTokenPairs : list (nat * nat))
    (pair' : pairval) (indices : nat * nat) : completion (locals * list (nat * nat)) :=
  let pairFreqs := increment (pairFreqs l) (key_of pair') in
  h ← MaxHeap.insert num_ge (heap l) (minus pairFreqs (key_of pair'), pair');
  mret (mkLocals (tokens l) pairFreqs (tokenPairs l) h, newTokenPairs ++ [indices]).

(** The body of the loop over [j]. The three reads of [tokenPairs] are
    inside its bounds; outside JavaScript would destructure or index
    [undefined], a [TypeError]. *)
Definition rescan_at (newToken : jsstring) (j : nat)
    (st : locals * list (nat * nat)) : completion (locals * list (nat * nat)) :=
  let '(l, newTokenPairs) := st in
  match tokenPairs l !! j with
  | None => Throw TypeError
  | Some (left', right') =>
      if decide (add (token_at (tokens l) left') (token_at (tokens l) right') = PStr newToken)
      then
        let l := mkLocals (splice1 (token_set (tokens l) left' newToken) right')
                          (pairFreqs l) (tokenPairs l) (heap l) in
        st ← (if bool_decide (0 < j) then
                match tokenPairs l !! (j - 1) with
                | None => Throw TypeError
                | Some (prevLeft, _) =>
                    let prevPair := add (token_at (tokens l) prevLeft)
                                        (token_at (tokens l) left') in
                    count_and_push l newTokenPairs prevPair (prevLeft, left')
                end
              else mret (l, newTokenPairs));
        let '(l, newTokenPairs) := st in
        if bool_decide (j < length (tokenPairs l) - 1) then
          match tokenPairs l !! (j + 1) with
          | None => Throw TypeError
          | Some (_, nextRight) =>
              let nextPair := add (token_at (tokens l) left')
                                  (token_at (tokens l) nextRight) in
              count_and_push l newTokenPairs nextPair (left', nextRight)
          end
        else mret (l, newTokenPairs)
      else mret (l, newTokenPairs ++ [(left', right')])
  end.

(** [n] rounds of the loop over [j], from [j]. *)
Fixpoint rescan_from (newToken : jsstring) (j n : nat)
    (st : locals * list (nat * nat)) : completion (locals * list (nat * nat)) :=
  match n with
  | 0 => Normal st
  | S n => st ← rescan_at newToken j st; rescan_from newToken (S j) n st
  end.

(** The whole pass, and the two statements after it that replace the
    content of [tokenPairs]. *)
Definition rescan (newToken : jsstring) (l : locals) : completion locals :=
  '(l, newTokenPairs) ← rescan_from newToken 0 (length (tokenPairs l)) (l, []);
  mret (mkLocals (tokens l) (pairFreqs l) newTokenPairs (heap l)).

(** [Object.keys(this.model).length + 1] *)
Definition next_id (m : gmap jsstring Z) : Z := Z.of_nat (size m) + 1.

(** The two statements that extend the vocabulary and the trie. *)
Definition add_token (this : BPE) (newToken : jsstring) : BPE :=
  let model := model_assign (model this) newToken (next_id (model this)) in
  mkBPE (model_name this) (verbose this) (trained this) model
    (Trie.insert (trie this) newToken (model_read model newToken)).

(** The head of a round of the main loop, up to [const newToken]: the loop
    stops, or [newToken] is to be merged, or [extractMax] or [best.replace]
    throws. *)
Inductive popped :=
| Stop (l : locals)
| Merge (newToken : jsstring) (l : locals)
| Fail (e : error).

Definition pop (l : locals) : popped :=
  if MaxHeap.isEmpty (heap l) then Stop l
  else
    match MaxHeap.extractMax num_gt (heap l) with
    | Throw e => Fail e
    | Normal ((negFreq, best), h) =>
        let l := mkLocals (tokens l) (pairFreqs l) (tokenPairs l) h in
        let freq := neg negFreq in
        if decide (freq = Num 1) then Stop l
        else
          match best with
          | PNaN => Fail TypeError
          | PStr best => Merge (replace_first_percent best) l
          end
    end.

(** How one round of the main loop ends. An exception leaves the object,
    not the local variables. *)
Inductive round :=
| Continue (this : BPE) (l : locals)
| Break (this : BPE) (l : locals)
| Raise (e : error) (this : BPE).

Definition iteration (this : BPE) (l : locals) : round :=
  match pop l with
  | Stop l => Break this l
  | Fail e => Raise e this
  | Merge newToken l =>
      let this := add_token this newToken in
      match rescan newToken l with
      | Throw e => Raise e this
      | Normal l => Continue this l
      end
  end.

(** [for (let i = 0; i < k; i++)] *)
Fixpoint loop (k : nat) (this : BPE) (l : locals) : completion locals * BPE :=
  match k with
  | 0 => (Normal l, this)
  | S k =>
      match iteration this l with
      | Continue this l => loop k this l
      | Break this l => (Normal l, this)
      | Raise e this => (Throw e, this)
      end
  end.

(** [train] on a string, up to the end of the main loop. *)
Definition run (this : BPE) (corpus : jsstring) (k : Z) : completion locals * BPE :=
  match start corpus with
  | Throw e => (Throw e, this)
  | Normal l => loop (Z.to_nat k) this l
  end.

(** What a call leaves behind: the value returned or the exception, the
    object, and the vocabulary file. *)
Record outcome := mkOutcome {
  returned : completion (gmap jsstring Z);
  this_after : BPE;
  file_after : file
}.

(** The defaults of the last two parameters. *)
Definition default_save : bool := false.
Definition default_k : Z := 500.

Definition train (this : BPE) (f : file) (corpus : value) (save : bool) (k : Z) : outcome :=
  match corpus with
  | VStr corpus =>
      match run this corpus k with
      | (Normal _, this) =>
          mkOutcome (Normal (model this)) this (if save then Some (model this) else f)
      | (Throw e, this) => mkOutcome (Throw e) this f
      end
  | _ => mkOutcome (Throw (Error (str "Cannot train nonstring"))) this f
  end.

End BPE.

(** * Notions used in the statements *)

Module Spec.
Import JS.

(** The boundary between [w] and [rest] lies inside a surrogate pair. *)
Definition splits_pair (w rest : jsstring) : bool :=
  match last w, head rest with
  | Some a, Some b => is_high_surrogate a && is_low_surrogate b
  | _, _ => false
  end.

(** The node reached from [node] along [cs] exists and ends a word. *)
Fixpoint terminus (node : Trie.TrieNode) (cs : list jsstring) : bool :=
  match cs with
  | [] => Trie.isEndOfWord node
  | c :: cs' =>
      match Trie.children node !! c with
      | Some child => terminus child cs'
      | None => false
      end
  end.

(** The greatest [n >= 1] such that the first [n] of [cs] lead from
    [node] to the end of a word, if there is one. *)
Fixpoint longest (node : Trie.TrieNode) (cs : list jsstring) : option nat :=
  match cs with
  | [] => None
  | c :: cs' =>
      match Trie.children node !! c with
      | None => None
      | Some child =>
          match longest child cs' with
          | Some n => Some (S n)
          | None => if Trie.isEndOfWord child then Some 1 else None
          end
      end
  end.

(** The trie after the calls [insert(w, v)] for the entries, in order. *)
Definition build (entries : list (jsstring * value)) : Trie.Trie :=
  foldl (λ t '(w, v), Trie.insert t w v) Trie.new entries.

(** The computation returns, with a value that satisfies [Q]. *)
Definition returns {A : Type} (c : completion A) (Q : A → Prop) : Prop :=
  match c with
  | Normal a => Q a
  | Throw _ => False
  end.

(** Integer priorities, compared as JavaScript compares numbers. *)
Definition int_ge (a b : Z) : bool := bool_decide (b ≤ a)%Z.
Definition int_gt (a b : Z) : bool := bool_decide (b < a)%Z.

(** The binary-heap invariant: the priority of every node is greater than
    or equal to the priority of each of its children. *)
Definition heap_ordered {P X : Type} (geb : P → P → bool) (heap : list (P * X)) : Prop :=
  ∀ i parent child,
    heap !! i = Some parent →
    heap !! (2 * i + 1) = Some child ∨ heap !! (2 * i + 2) = Some child →
    geb parent.1 child.1 = true.

(** The node at [j] is not above its parent. *)
Definition fits {X : Type} (heap : list (Z * X)) (j : nat) : Prop :=
  ∀ p c, 0 < j → heap !! ((j - 1) / 2) = Some p → heap !! j = Some c →
         (c.1 ≤ p.1)%Z.

(** The children of [k] are not above the parent of [k]. *)
Definition fits_grandparent {X : Type} (heap : list (Z * X)) (k : nat) : Prop :=
  ∀ j g c, 0 < k → 0 < j → (j - 1) / 2 = k →
           heap !! ((k - 1) / 2) = Some g → heap !! j = Some c → (c.1 ≤ g.1)%Z.

(** The invariant of the loop of [bubbleUp] at [index = k]: only the node
    at [k] may be above its parent. *)
Definition up_inv {X : Type} (heap : list (Z * X)) (k : nat) : Prop :=
  (∀ j, j ≠ k → fits heap j) ∧ fits_grandparent heap k.

(** The invariant of the loop of [bubbleDown] at [index = k]: only the
    children of [k] may be above their parent. *)
Definition down_inv {X : Type} (heap : list (Z * X)) (k : nat) : Prop :=
  (∀ j, (j - 1) / 2 ≠ k → fits heap j) ∧ fits_grandparent heap k.

(** A sequence of calls on one heap. *)
Inductive call (P X : Type) :=
| Insert (item : P * X)
| ExtractMax.
Arguments Insert {P X} item.
Arguments ExtractMax {P X}.

(** The heap after the calls and the items extracted, in order. *)
Fixpoint perform {P X : Type} (geb gtb : P → P → bool) (calls : list (call P X))
    (heap : list (P * X)) (out : list (P * X))
    : completion (list (P * X) * list (P * X)) :=
  match calls with
  | [] => Normal (heap, out)
  | Insert item :: calls =>
      heap ← MaxHeap.insert geb heap item; perform geb gtb calls heap out
  | ExtractMax :: calls =>
      '(max, heap) ← MaxHeap.extractMax gtb heap; perform geb gtb calls heap (out ++ [max])
  end.

(** An item and a call with the priority mapped by [f]. *)
Definition map_priority {P Q X : Type} (f : P → Q) (item : P * X) : Q * X :=
  (f item.1, item.2).

Definition map_call {P Q X : Type} (f : P → Q) (c : call P X) : call Q X :=
  match c with
  | Insert item => Insert (map_priority f item)
  | ExtractMax => ExtractMax
  end.

(** The token texts that the main loop of [train] merges in [k] rounds
    from the local variables [l], in order. *)
Fixpoint merges (k : nat) (l : BPE.locals) : list jsstring :=
  match k with
  | 0 => []
  | S k =>
      match BPE.pop l with
      | BPE.Merge newToken l =>
          newToken :: match BPE.rescan newToken l with
                      | Normal l => merges k l
                      | Throw _ => []
                      end
      | _ => []
      end
  end.

Definition merged_tokens (corpus : jsstring) (k : Z) : list jsstring :=
  match BPE.start corpus with
  | Normal l => merges (Z.to_nat k) l
  | Throw _ => []
  end.

(** The ids are positive, at most the size of the vocabulary, and no two
    token texts share one: the ids are the numbers from 1 to the size. *)
Definition numbered (m : gmap jsstring Z) : Prop :=
  (∀ t id, m !! t = Some id → (1 ≤ id ≤ Z.of_nat (size m))%Z)
  ∧ (∀ t1 t2 id, m !! t1 = Some id → m !! t2 = Some id → t1 = t2).

(** The exceptions that the methods called by [train] can raise. *)
Definition internal (e : error) : Prop :=
  e = TypeError ∨ e = Error (str "Heap is empty").

(** An engine made where no vocabulary file exists, then trained on the
    corpus "aaa" once, and twice. *)
Definition fresh : BPE.BPE := BPE.new (str "abc.json") false None.

Definition train_on (this : BPE.BPE) (corpus : string) : BPE.BPE :=
  BPE.this_after (BPE.train this None (VStr (str corpus)) BPE.default_save BPE.default_k).

Definition trained_once : BPE.BPE := train_on fresh "aaa".
Definition trained_twice : BPE.BPE := train_on trained_once "aaa".

(** ** The state of one call of [train] *)

Import BPE.

(** Every value of [pairFreqs] is a count, at least one. *)
Definition counted (o : freqs) : Prop :=
  ∀ key v, (key, v) ∈ o → ∃ n, v = FCount n ∧ (1 ≤ n)%Z.

(** The heap of [train] is ordered and holds negated counts. *)
Definition heaped (h : list (jsnum * pairval)) : Prop :=
  ∃ hz : list (Z * pairval),
    h = map_priority Num <$> hz ∧ heap_ordered int_ge hz
    ∧ Forall (λ item, (item.1 ≤ -1)%Z) hz.

(** The heap holds a pair of frequency one. *)
Definition has_one (h : list (jsnum * pairval)) : Prop :=
  ∃ pair', (Num (-1), pair') ∈ h.

(** A token of the initial sequence: one code unit, not a percent sign. *)
Definition unit_token (t : token) : Prop := ∃ u, t = Some [u] ∧ u ≠ percent.

(** The index pairs of the first [m] adjacent positions. *)
Definition pairs (m : nat) : list (nat * nat) := (λ i, (i, i + 1)) <$> seq 0 m.

(** The pair at position [i] of a token sequence. *)
Definition pair_at (toks : list token) (i : nat) : pairval :=
  add (token_at toks i) (token_at toks (i + 1)).

(** The heap item of an entry of [pairFreqs]. *)
Definition item_of (o : freqs) (item : jsnum * pairval) : Prop :=
  ∃ key n, item = (Num (- n), PStr key) ∧ (key, FCount n) ∈ o.

(** A token while [newToken] is being merged: one code unit, or [newToken]. *)
Definition shape (newToken : jsstring) (t : token) : Prop :=
  ∃ s, t = Some s ∧ (length s = 1 ∨ s = newToken).

(** What every round of the pass keeps. *)
Definition rescan_inv (newToken : jsstring) (m : nat) (l : locals) : Prop :=
  tokenPairs l = pairs m ∧ Forall (shape newToken) (tokens l)
  ∧ counted (pairFreqs l) ∧ heaped (heap l).

(** Before round [j]: nothing was fused yet, or a pair of frequency one
    is in the heap. *)
Definition rescan_one (newToken : jsstring) (l1 : locals) (j : nat) (l : locals)
    : Prop :=
  (l = l1 ∧ ∀ i, i < j → pair_at (tokens l1) i ≠ PStr newToken)
  ∨ has_one (heap l).

(** ** Pairs, consistency of the trie, and the text of the tokens *)

(** The pair of code units at position [i] of a string, the pairs at all
    positions, and the number of positions where [key] is the pair. *)
Definition pair_of (s : jsstring) (i : nat) : jsstring := take 2 (drop i s).
Definition pair_keys (s : jsstring) : list jsstring :=
  pair_of s <$> seq 0 (length s - 1).
Definition occurrences (key s : jsstring) : nat :=
  length (filter (λ k, k = key) (pair_keys s)).

(** The heap item that the second loop of [train] makes of an entry. *)
Definition entry_item (kv : jsstring * freqval) : jsnum * pairval :=
  (minus_val kv.2, PStr kv.1).

(** The trie holds the words of the vocabulary with their ids, as the
    constructor leaves it. *)
Definition consistent (this : BPE.BPE) : Prop :=
  BPE.trie this = BPE.load_trie (map_to_list (BPE.model this)).

(** The tokens are strings, each one code unit or [newToken], and their
    concatenation is [s]. *)
Definition segmentation (newToken : jsstring) (toks : list token) (s : jsstring)
    : Prop :=
  ∃ strs, toks = Some <$> strs ∧ concat strs = s
          ∧ Forall (λ x, length x = 1 ∨ x = newToken) strs.

End Spec.

(** * Properties *)

(** ** Strings *)

Section Strings.
Import JS.

Lemma chars_cons first rest :
  chars (first :: rest) =
    match rest with
    | second :: rest' =>
        if is_high_surrogate first && is_low_surrogate second
        then [first; second] :: chars rest'
        else [first] :: chars rest
    | [] => [[first]]
    end.
Proof. reflexivity. Qed.

(** Induction two code units at a time, as [chars] recurses. *)
Lemma chars_ind (Q : jsstring → Prop) :
  Q [] →
  (∀ u, Q [u]) →
  (∀ u v s, Q s → Q (v :: s) → Q (u :: v :: s)) →
  ∀ s, Q s.
Proof.
  intros H0 H1 H2 s.
  enough (Q s ∧ ∀ u, Q (u :: s)) by tauto.
  induction s as [|v s [IH1 IH2]]; split; auto.
Qed.

Lemma chars_concat s : concat (chars s) = s.
Proof.
  induction s as [|u|u v s IH1 IH2] using chars_ind; [done..|].
  rewrite chars_cons.
  destruct (_ && _); rewrite concat_cons; [by rewrite IH1 | by rewrite IH2].
Qed.

Lemma chars_nonempty s c : c ∈ chars s → c ≠ [].
Proof.
  induction s as [|u|u v s IH1 IH2] using chars_ind.
  - by intros ?%elem_of_nil.
  - by intros ->%list_elem_of_singleton.
  - rewrite chars_cons. destruct (_ && _); intros [->|?]%elem_of_cons; auto.
Qed.

Lemma chars_nil_inv s : chars s = [] → s = [].
Proof. intros H. by rewrite <-(chars_concat s), H. Qed.

Lemma chars_inj s1 s2 : chars s1 = chars s2 → s1 = s2.
Proof. intros H. by rewrite <-(chars_concat s1), <-(chars_concat s2), H. Qed.

Lemma concat_nonempty (cs : list jsstring) :
  cs ≠ [] → (∀ c, c ∈ cs → c ≠ []) → concat cs ≠ [].
Proof.
  destruct cs as [|c cs]; [done|]. intros _ H. simpl.
  specialize (H c (list_elem_of_here _ _)). by destruct c.
Qed.

End Strings.

(** ** The trie *)

Section TrieFacts.
Import JS Trie Spec.

Lemma chars_app w rest :
  splits_pair w rest = false → chars (w ++ rest) = chars w ++ chars rest.
Proof.
  induction w as [|u|u v s IH1 IH2] using chars_ind; intros Hb.
  - done.
  - destruct rest as [|b r]; [done|].
    simpl in *. unfold splits_pair in Hb. simpl in Hb. by rewrite Hb.
  - assert (splits_pair (v :: s) rest = false) as H2 by done.
    assert (splits_pair s rest = false) as H1 by (by destruct s).
    change ((u :: v :: s) ++ rest) with (u :: v :: (s ++ rest)).
    rewrite (chars_cons u (v :: s ++ rest)), (chars_cons u (v :: s)).
    destruct (_ && _).
    + by rewrite IH1.
    + by rewrite <-app_comm_cons, <-IH2.
Qed.

Lemma terminus_new cs : terminus new_TrieNode cs = false.
Proof. by destruct cs. Qed.

Lemma terminus_insert_at node cs v p :
  terminus (insert_at node cs v) p = bool_decide (p = cs) || terminus node p.
Proof.
  revert node p. induction cs as [|c cs IH]; intros node [|c' p]; simpl; [done..|].
  destruct (decide (c' = c)) as [->|Hne].
  - rewrite lookup_insert_eq, IH.
    f_equal.
    + apply bool_decide_ext. naive_solver.
    + destruct (children node !! c); [done|]. apply terminus_new.
  - rewrite lookup_insert_ne by done.
    rewrite bool_decide_eq_false_2; [done|congruence].
Qed.

Lemma terminus_build entries p :
  terminus (root (build entries)) p = true ↔ ∃ w v, (w, v) ∈ entries ∧ chars w = p.
Proof.
  unfold build. induction entries as [|[w v] entries IH] using rev_ind.
  - rewrite terminus_new. split; [done|]. by intros (? & ? & ?%elem_of_nil & _).
  - rewrite foldl_app. simpl. rewrite terminus_insert_at, orb_true_iff, IH.
    rewrite bool_decide_eq_true. split.
    + intros [->|(w' & v' & ? & ?)].
      * exists w, v. split; [|done]. apply elem_of_app. right. by left.
      * exists w', v'. split; [|done]. apply elem_of_app. by left.
    + intros (w' & v' & [?|Hin]%elem_of_app & Hc); [right; eauto|].
      apply list_elem_of_singleton in Hin as [= -> ->]. by left.
Qed.

Lemma lpm_loop_longest node lastMatch currentPrefix cs :
  lpm_loop node lastMatch currentPrefix cs =
    match longest node cs with
    | Some n => Some (currentPrefix ++ concat (take n cs))
    | None => lastMatch
    end.
Proof.
  revert node lastMatch currentPrefix.
  induction cs as [|c cs IH]; intros node lastMatch currentPrefix; simpl; [done|].
  destruct (children node !! c) as [child|]; [|done].
  rewrite IH. destruct (longest child cs) as [n|].
  - by rewrite <-(assoc_L (++)).
  - destruct (isEndOfWord child); [|done].
    simpl. by rewrite ?take_0, !(right_id_L [] (++)).
Qed.

Lemma longest_Some node cs n :
  longest node cs = Some n → 1 ≤ n ≤ length cs ∧ terminus node (take n cs) = true.
Proof.
  revert node n. induction cs as [|c cs IH]; intros node n; simpl; [done|].
  destruct (children node !! c) as [child|] eqn:Hc; [|done].
  destruct (longest child cs) as [m|] eqn:Hm.
  - intros [= <-]. apply IH in Hm as [? ?]. simpl. rewrite Hc. split; [lia|done].
  - destruct (isEndOfWord child) eqn:He; [|done].
    intros [= <-]. simpl. rewrite Hc. split; [lia|done].
Qed.

Lemma longest_max node cs m :
  1 ≤ m ≤ length cs → terminus node (take m cs) = true →
  ∃ n, longest node cs = Some n ∧ m ≤ n.
Proof.
  revert node m. induction cs as [|c cs IH]; intros node m; simpl; [lia|].
  destruct m as [|m]; [lia|]. simpl.
  destruct (children node !! c) as [child|]; [|done].
  intros Hm Ht. destruct m as [|m].
  - simpl in Ht. rewrite Ht.
    destruct (longest child cs) as [n|]; eexists; (split; [done|lia]).
  - destruct (IH child (S m)) as (n & -> & ?); [lia|done|].
    exists (S n). split; [done|lia].
Qed.

(** What [longestPrefixMatch] returns: [null], or the text of the first
    [n >= 1] characters of its argument. *)
Lemma longestPrefixMatch_result t word m :
  longestPrefixMatch t word = Some m →
  ∃ n, 1 ≤ n ≤ length (chars word) ∧ m = concat (take n (chars word))
       ∧ terminus (root t) (take n (chars word)) = true.
Proof.
  unfold longestPrefixMatch. rewrite lpm_loop_longest.
  destruct (longest _ _) as [n|] eqn:Hn; [|done].
  intros [= <-]. apply longest_Some in Hn as [? ?]. eauto.
Qed.

Lemma longestPrefixMatch_prefix t word m :
  longestPrefixMatch t word = Some m → m ≠ [] ∧ m `prefix_of` word.
Proof.
  intros (n & Hn & -> & _)%longestPrefixMatch_result. split.
  - apply concat_nonempty.
    + destruct (chars word); simpl in *; [lia|]. by destruct n; [lia|].
    + intros c Hc%subseteq_take. by eapply chars_nonempty.
  - exists (concat (drop n (chars word))).
    by rewrite <-concat_app, take_drop, chars_concat.
Qed.

(** Insertions of different words commute, so the trie that the
    constructor builds does not depend on the order of the entries. *)
Lemma insert_at_comm cs1 : ∀ node cs2 v1 v2,
  cs1 ≠ cs2 →
  insert_at (insert_at node cs1 v1) cs2 v2 = insert_at (insert_at node cs2 v2) cs1 v1.
Proof.
  induction cs1 as [|c1 cs1 IH]; intros node [|c2 cs2] v1 v2 Hne; simpl; [done..|].
  destruct (decide (c1 = c2)) as [->|Hc].
  - rewrite !lookup_insert_eq. simpl. rewrite !insert_insert_eq.
    do 2 f_equal. apply IH. congruence.
  - rewrite !lookup_insert_ne by done. f_equal. by apply insert_insert_ne.
Qed.

Lemma insert_comm t w1 w2 v1 v2 :
  w1 ≠ w2 → insert (insert t w1 v1) w2 v2 = insert (insert t w2 v2) w1 v1.
Proof.
  intros Hne. unfold insert. simpl. f_equal. apply insert_at_comm.
  by intros ?%chars_inj.
Qed.

Lemma foldl_reverse {A B} (f : A → B → A) a l :
  foldl f a l = foldr (λ x a, f a x) a (reverse l).
Proof.
  revert a. induction l as [|x l IH]; intros a; simpl; [done|].
  by rewrite reverse_cons, foldr_app.
Qed.

Lemma load_trie_order (m : gmap jsstring Z) (entries : list (jsstring * Z)) :
  entries ≡ₚ map_to_list m →
  BPE.load_trie entries = BPE.load_trie (map_to_list m).
Proof.
  intros Hperm. unfold BPE.load_trie. rewrite !foldl_reverse.
  assert (NoDup (reverse entries).*1) as Hnd.
  { rewrite reverse_Permutation, Hperm. apply NoDup_fst_map_to_list. }
  apply (foldr_permutation (=)).
  - solve_proper.
  - intros j1 [k1 id1] j2 [k2 id2] t Hj H1 H2. apply insert_comm.
    intros Heq. apply Hj.
    apply (NoDup_lookup _ _ _ k1 Hnd); rewrite list_lookup_fmap.
    + by rewrite H1.
    + rewrite H2. simpl. congruence.
  - by rewrite !reverse_Permutation.
Qed.

End TrieFacts.

Section TrieClaims.
Import JS Trie Spec.

(** C8, as amended. Let the words of [entries] be inserted into an empty
    trie, a non-empty word [w] among them. Then [longestPrefixMatch] on
    [w ++ rest] returns [w], provided that no longer inserted word is a
    prefix of [w ++ rest] and that the boundary between [w] and [rest] is
    not inside a surrogate pair. *)
Theorem longestPrefixMatch_inserted_word entries w v rest :
  (w, v) ∈ entries →
  w ≠ [] →
  splits_pair w rest = false →
  (∀ w' v', (w', v') ∈ entries → w' `prefix_of` (w ++ rest) → length w' ≤ length w) →
  longestPrefixMatch (build entries) (w ++ rest) = Some w.
Proof.
  intros Hin Hne Hb Hlong.
  unfold longestPrefixMatch. rewrite lpm_loop_longest, chars_app by done.
  assert (1 ≤ length (chars w)) as Hcs.
  { destruct (chars w) eqn:E; [|simpl; lia]. by apply chars_nil_inv in E. }
  destruct (longest_max (root (build entries)) (chars w ++ chars rest)
              (length (chars w))) as (n & Hn & Hle).
  { rewrite length_app. lia. }
  { rewrite take_app_length. apply terminus_build. eauto. }
  rewrite Hn. apply longest_Some in Hn as [_ (w' & v' & Hin' & Hw')%terminus_build].
  rewrite take_app, take_ge in Hw' by done.
  assert (w' = w ++ concat (take (n - length (chars w)) (chars rest))) as Hw.
  { transitivity (concat (chars w')); [by rewrite chars_concat|].
    by rewrite Hw', concat_app, chars_concat. }
  assert (w' `prefix_of` w ++ rest) as Hpre.
  { rewrite Hw. apply prefix_app.
    exists (concat (drop (n - length (chars w)) (chars rest))).
    by rewrite <-concat_app, take_drop, chars_concat. }
  apply (Hlong _ _ Hin') in Hpre. rewrite Hw, length_app in Hpre.
  rewrite take_app, take_ge, concat_app, chars_concat by done.
  destruct (concat (take (n - length (chars w)) (chars rest))); simpl in *; [|lia].
  by rewrite (right_id_L [] (++)).
Qed.

Lemma longestPrefixMatch_inserted_word_witness :
  longestPrefixMatch (build [(str "aa", VNum 1); (str "a", VNum 2)])
    (str "aa" ++ str "a") = Some (str "aa").
Proof.
  apply (longestPrefixMatch_inserted_word _ _ (VNum 1)).
  - by left.
  - done.
  - reflexivity.
  - intros w' v' Hin _.
    repeat (apply elem_of_cons in Hin as [[= -> ->]|Hin]; [vm_compute; lia|]).
    by apply elem_of_nil in Hin.
Defined.

(** C8 as it is stated fails: the word is a lone high surrogate and the
    text continues with a low surrogate, which [for ... of] reads together
    with it as one character. *)
Lemma longestPrefixMatch_lone_surrogate :
  ¬ (∀ entries w v rest,
       (w, v) ∈ entries →
       w ≠ [] →
       (∀ w' v', (w', v') ∈ entries → w' `prefix_of` (w ++ rest) →
                 length w' ≤ length w) →
       longestPrefixMatch (build entries) (w ++ rest) = Some w).
Proof.
  intros H.
  specialize (H [([0xD83D%N], VNum 1)] [0xD83D%N] (VNum 1) [0xDE00%N]).
  discriminate H.
  - by left.
  - done.
  - by intros w' v' [= -> ->]%list_elem_of_singleton _.
Qed.

(** The same on a trie that [train] has built. On the corpus of "a" and
    U+1F600 alternating, [train] merges "a" with the high surrogate; the
    token is then found before "b" but not before the low surrogate. *)
Lemma trained_surrogate_not_matched :
  let smile := [0xD83D; 0xDE00]%N in
  let corpus := str "a" ++ smile ++ str "a" ++ smile ++ str "a" in
  let this := BPE.this_after (BPE.train fresh None (VStr corpus) false 500) in
  merged_tokens corpus 500 = [str "a" ++ [0xD83D%N]]
  ∧ longestPrefixMatch (BPE.trie this) (str "a" ++ [0xD83D%N] ++ str "b")
    = Some (str "a" ++ [0xD83D%N])
  ∧ longestPrefixMatch (BPE.trie this) (str "a" ++ smile) = None.
Proof. by vm_compute. Qed.

End TrieClaims.

(** ** tokenize *)

Section Tokenize.
Import JS Trie Spec.

Lemma tokenize_round_spec t data i unit i' tok :
  data !! i = Some unit →
  BPE.tokenize_round t data i unit = (i', tok) →
  tok ≠ [] ∧ i' = i + length tok ∧ drop i data = tok ++ drop i' data.
Proof.
  intros Hi. unfold BPE.tokenize_round.
  destruct (longestPrefixMatch t (drop i data)) as [[|u us]|] eqn:Hm.
  2: { intros [= <- <-]. apply longestPrefixMatch_prefix in Hm as [_ [k Hk]].
       split; [done|]. split; [done|].
       rewrite <-drop_drop, Hk.
       f_equal. symmetry. exact (drop_app_length (u :: us) k). }
  all: intros [= <- <-]; split; [done|]; split; [done|].
  all: rewrite (drop_S _ _ _ Hi); simpl; do 2 f_equal; lia.
Qed.

Lemma tokenize_loop_spec fuel t data i tokens :
  i ≤ length data → length data - i ≤ fuel →
  ∃ toks, BPE.tokenize_loop fuel t data i tokens = Some (tokens ++ toks)
          ∧ concat toks = drop i data.
Proof.
  revert i tokens. induction fuel as [|fuel IH]; intros i tokens Hi Hf; simpl.
  - rewrite lookup_ge_None_2 by lia. exists [].
    by rewrite (right_id_L [] (++)), drop_ge by lia.
  - destruct (data !! i) as [unit|] eqn:Hu.
    2: { apply lookup_ge_None in Hu. exists [].
         by rewrite (right_id_L [] (++)), drop_ge by lia. }
    destruct (BPE.tokenize_round t data i unit) as [i' tok] eqn:Hr.
    destruct (tokenize_round_spec _ _ _ _ _ _ Hu Hr) as (Hne & -> & Hd).
    assert (length tok ≤ length data - i).
    { rewrite <-length_drop, Hd, length_app. lia. }
    assert (0 < length tok) by (destruct tok; [done|simpl; lia]).
    destruct (IH (i + length tok) (tokens ++ [tok])) as (toks & -> & Hc); [lia..|].
    exists (tok :: toks). split.
    + by rewrite <-(assoc_L (++)).
    + by rewrite concat_cons, Hc, <-Hd.
Qed.

Lemma tokenize_loop_mono fuel fuel' t data i tokens r :
  fuel ≤ fuel' →
  BPE.tokenize_loop fuel t data i tokens = Some r →
  BPE.tokenize_loop fuel' t data i tokens = Some r.
Proof.
  revert fuel' i tokens. induction fuel as [|fuel IH]; intros fuel' i tokens Hf; simpl.
  - destruct fuel'; simpl; by destruct (data !! i).
  - destruct fuel' as [|fuel']; [lia|]. simpl.
    destruct (data !! i) as [unit|]; [|done].
    destruct (BPE.tokenize_round t data i unit). apply IH. lia.
Qed.

(** C1. For every engine, whatever its trie holds, and every string [s],
    [tokenize(s)] returns tokens whose concatenation is [s]; on the empty
    string it returns no token. *)
Theorem tokenize_concat :
  (∀ (this : BPE.BPE) (s : jsstring),
     ∃ tokens, BPE.tokenize this s = Some tokens ∧ concat tokens = s)
  ∧ (∀ this : BPE.BPE, BPE.tokenize this [] = Some []).
Proof.
  split; [|done]. intros this s.
  destruct (tokenize_loop_spec (length s) (BPE.trie this) s 0 [])
    as (toks & H & Hc); [lia..|].
  exists toks. by rewrite drop_0 in Hc.
Qed.

(** C9. [longestPrefixMatch] returns [null] or a non-empty prefix of its
    argument; each round of the loop of [tokenize] moves [i] forward, by
    at least one and not beyond the end; and the loop ends within
    [data.length] rounds, more rounds changing nothing. *)
Theorem tokenize_terminates :
  (∀ t word,
     longestPrefixMatch t word = None
     ∨ ∃ m, longestPrefixMatch t word = Some m ∧ m ≠ [] ∧ m `prefix_of` word)
  ∧ (∀ t data i unit,
       data !! i = Some unit →
       i < (BPE.tokenize_round t data i unit).1 ≤ length data)
  ∧ (∀ this data fuel,
       length data ≤ fuel →
       is_Some (BPE.tokenize this data)
       ∧ BPE.tokenize_loop fuel (BPE.trie this) data 0 [] = BPE.tokenize this data).
Proof.
  split; [|split].
  - intros t word. destruct (longestPrefixMatch t word) as [m|] eqn:Hm; [|by left].
    right. exists m. split; [done|]. by apply longestPrefixMatch_prefix in Hm.
  - intros t data i unit Hi.
    destruct (BPE.tokenize_round t data i unit) as [i' tok] eqn:Hr.
    destruct (tokenize_round_spec _ _ _ _ _ _ Hi Hr) as (Hne & -> & Hd).
    apply (f_equal length) in Hd. rewrite length_app, !length_drop in Hd.
    apply lookup_lt_Some in Hi. destruct tok; [done|]. simpl in *. lia.
  - intros this data fuel Hf. unfold BPE.tokenize.
    destruct (tokenize_loop_spec (length data) (BPE.trie this) data 0 [])
      as (toks & H & Hc); [lia..|]. rewrite H.
    split; [done|]. by apply (tokenize_loop_mono (length data)).
Qed.

Lemma tokenize_terminates_witness :
  0 < (BPE.tokenize_round Trie.new (str "ab") 0 97%N).1 ≤ 2
  ∧ is_Some (BPE.tokenize (BPE.new [] false None) (str "ab")).
Proof.
  destruct tokenize_terminates as (_ & Hround & Hloop). split.
  - by apply (Hround Trie.new (str "ab") 0 97%N).
  - by apply (Hloop (BPE.new [] false None) (str "ab") 2).
Defined.

End Tokenize.

(** ** The heap *)

(** The two loops, one round unfolded. *)
Section HeapLoops.
Import JS MaxHeap.
Context {P X : Type} (geb gtb : P → P → bool).

Lemma bubbleUp_round (heap : list (P * X)) index :
  bubbleUp geb heap index =
    if decide (0 < index) then
      match parent_wins geb heap ((index - 1) / 2) index with
      | Throw e => Throw e
      | Normal true => Normal heap
      | Normal false =>
          match swap heap ((index - 1) / 2) index with
          | Normal heap' => bubbleUp geb heap' ((index - 1) / 2)
          | Throw e => Throw e
          end
      end
    else Normal heap.
Proof.
  simp bubbleUp. destruct (decide (0 < index)); simpl; [|done].
  destruct (parent_wins _ _ _ _) as [[]|]; simpl; [done| |done].
  by destruct (swap _ _ _).
Qed.

Lemma pick_range (heap : list (P * X)) child largest r :
  pick gtb heap child largest = Normal r →
  r = largest ∨ (r = child ∧ child < length heap).
Proof.
  unfold pick, priority. case_bool_decide; [|by intros [= ->]; left].
  destruct (heap !! child); [|done].
  destruct (heap !! largest); [|done]. cbn.
  destruct (gtb _ _); intros [= <-]; auto.
Qed.

Lemma largest_of_range (heap : list (P * X)) index largest :
  largest_of gtb heap index = Normal largest →
  largest = index ∨ (index < largest < length heap).
Proof.
  unfold largest_of.
  destruct (pick gtb heap (2 * index + 1) index) as [l|] eqn:Hl; [|done].
  cbn. intros Hr.
  apply pick_range in Hl, Hr. lia.
Qed.

Lemma bubbleDown_round_at (heap : list (P * X)) index r :
  largest_of gtb heap index = r →
  bubbleDown gtb heap index =
    match r with
    | Throw e => Throw e
    | Normal largest =>
        if decide (largest = index) then Normal heap
        else match swap heap index largest with
             | Normal heap' => bubbleDown gtb heap' largest
             | Throw e => Throw e
             end
    end.
Proof.
  intros Hr. simp bubbleDown.
  destruct (inspect (largest_of gtb heap index)) as [[largest|e] Hl];
    rewrite Hl in Hr; subst r; simpl; [|done].
  destruct (decide (largest = index)); simpl; [done|].
  remember (swap heap index largest) as s eqn:Es.
  destruct (inspect (swap heap index largest)) as [[heap'|e] Hs];
    rewrite Hs in Es; subst s; simpl; done.
Qed.

Lemma bubbleDown_round (heap : list (P * X)) index :
  bubbleDown gtb heap index =
    match largest_of gtb heap index with
    | Throw e => Throw e
    | Normal largest =>
        if decide (largest = index) then Normal heap
        else match swap heap index largest with
             | Normal heap' => bubbleDown gtb heap' largest
             | Throw e => Throw e
             end
    end.
Proof. by apply bubbleDown_round_at. Qed.

End HeapLoops.

Section HeapSwap.
Import JS MaxHeap.
Context {P X : Type}.
Implicit Types heap : list (P * X).

Lemma bind_Normal {A B : Type} (a : A) (f : A → completion B) :
  Normal a ≫= f = f a.
Proof. reflexivity. Qed.

Lemma swap_Normal heap i j a b :
  heap !! i = Some a → heap !! j = Some b →
  swap heap i j = Normal (<[j := a]> (<[i := b]> heap)).
Proof. unfold swap. by intros -> ->. Qed.

Lemma swap_lookup heap i j a b :
  heap !! i = Some a → heap !! j = Some b → i ≠ j →
  ∀ heap', heap' = <[j := a]> (<[i := b]> heap) →
  heap' !! i = Some b ∧ heap' !! j = Some a
  ∧ (∀ m, m ≠ i → m ≠ j → heap' !! m = heap !! m)
  ∧ length heap' = length heap ∧ heap' ≡ₚ heap.
Proof.
  intros Hi Hj Hne heap' ->.
  pose proof (lookup_lt_Some _ _ _ Hi). pose proof (lookup_lt_Some _ _ _ Hj).
  split_and!.
  - rewrite list_lookup_insert_ne, list_lookup_insert_eq by done. done.
  - by rewrite list_lookup_insert_eq by (by rewrite length_insert).
  - intros m ? ?. by rewrite !list_lookup_insert_ne.
  - by rewrite !length_insert.
  - by apply Permutation_insert_swap.
Qed.

End HeapSwap.

(** Heaps with integer priorities. *)
Section HeapInt.
Import JS MaxHeap Spec.
Context {X : Type}.
Implicit Types heap : list (Z * X).

Lemma half_spec (n : nat) : n = 2 * (n / 2) ∨ n = 2 * (n / 2) + 1.
Proof.
  pose proof (Nat.div_mod_eq n 2). pose proof (Nat.mod_upper_bound n 2). lia.
Qed.

Lemma parent_spec (j k : nat) :
  0 < j → (j - 1) / 2 = k ↔ j = 2 * k + 1 ∨ j = 2 * k + 2.
Proof. intros. pose proof (half_spec (j - 1)). lia. Qed.

Lemma parent_lt (j : nat) : 0 < j → (j - 1) / 2 < j.
Proof. intros. pose proof (half_spec (j - 1)). lia. Qed.

Lemma heap_ordered_fits heap :
  heap_ordered int_ge heap ↔ ∀ j, fits heap j.
Proof.
  split.
  - intros H j p c Hj Hp Hc.
    pose proof (proj1 (parent_spec j _ Hj) eq_refl) as Hjk.
    assert (int_ge p.1 c.1 = true) as Hge.
    { apply (H ((j - 1) / 2) p c Hp). destruct Hjk as [E|E]; rewrite <-E; auto. }
    by apply bool_decide_eq_true in Hge.
  - intros H i parent child Hp [Hc|Hc]; apply bool_decide_eq_true_2.
    + apply (H (2 * i + 1)); [lia| |done].
      by rewrite (proj2 (parent_spec (2 * i + 1) i ltac:(lia))) by auto.
    + apply (H (2 * i + 2)); [lia| |done].
      by rewrite (proj2 (parent_spec (2 * i + 2) i ltac:(lia))) by auto.
Qed.

(** *** bubbleUp *)

Lemma up_inv_swap heap k a b heap' :
  0 < k →
  heap !! ((k - 1) / 2) = Some a → heap !! k = Some b →
  (a.1 < b.1)%Z →
  heap' = <[k := a]> (<[(k - 1) / 2 := b]> heap) →
  up_inv heap k →
  up_inv heap' ((k - 1) / 2).
Proof.
  intros Hk Ha Hb Hlt Hheap' [Hfit Hgrand].
  pose proof (parent_lt k Hk) as Hpk.
  destruct (swap_lookup heap ((k - 1) / 2) k a b) with (heap' := heap')
    as (Hp' & Hk' & Hother & _); [done|done|lia|done|].
  clear Hheap'. remember ((k - 1) / 2) as p eqn:Ep.
  split.
  - intros j Hjp pj cj Hj Hpar Hcj.
    destruct (decide (j = k)) as [->|Hjk].
    { rewrite <-Ep, Hp' in Hpar. rewrite Hk' in Hcj.
      injection Hpar as <-. injection Hcj as <-. lia. }
    rewrite Hother in Hcj by done.
    destruct (decide ((j - 1) / 2 = p)) as [Hq|Hq].
    { rewrite Hq, Hp' in Hpar. injection Hpar as <-.
      pose proof (Hfit j Hjk a cj Hj) as H. rewrite Hq in H.
      specialize (H Ha Hcj). lia. }
    destruct (decide ((j - 1) / 2 = k)) as [Hq'|Hq'].
    { rewrite Hq', Hk' in Hpar. injection Hpar as <-.
      apply (Hgrand j a cj); [done..| |done]. by rewrite <-Ep. }
    rewrite Hother in Hpar by done. by apply (Hfit j Hjk pj cj).
  - intros j g c Hp Hj Hjp Hg Hc.
    pose proof (parent_lt p Hp).
    rewrite Hother in Hg by lia.
    assert (a.1 ≤ g.1)%Z as Hag by (apply (Hfit p ltac:(lia) g a); done).
    destruct (decide (j = k)) as [->|Hjk].
    { rewrite Hk' in Hc. by injection Hc as <-. }
    pose proof (parent_lt j Hj).
    rewrite Hother in Hc by lia.
    pose proof (Hfit j Hjk a c Hj) as H'. rewrite Hjp in H'.
    specialize (H' Ha Hc). lia.
Qed.

Lemma bubbleUp_ordered k : ∀ heap,
  k < length heap → up_inv heap k →
  returns (bubbleUp int_ge heap k) (λ heap', (∀ j, fits heap' j) ∧ heap' ≡ₚ heap).
Proof.
  induction k as [k IH] using lt_wf_ind. intros heap Hlen Hinv.
  rewrite bubbleUp_round. destruct (decide (0 < k)) as [Hk|Hk].
  2: { split; [|done]. intros j.
       destruct (decide (j = k)) as [->|?]; [|by apply Hinv].
       intros ? ? ?. lia. }
  pose proof (parent_lt k Hk) as Hpk.
  destruct (lookup_lt_is_Some_2 heap ((k - 1) / 2)) as [a Ha]; [lia|].
  destruct (lookup_lt_is_Some_2 heap k) as [b Hb]; [lia|].
  unfold parent_wins, priority. rewrite Ha, Hb. cbn.
  unfold int_ge. case_bool_decide as Hcmp.
  - split; [|done]. intros j.
    destruct (decide (j = k)) as [->|?]; [|by apply Hinv].
    intros p c _ Hp Hc. rewrite Ha in Hp. rewrite Hb in Hc.
    injection Hp as <-. by injection Hc as <-.
  - rewrite (swap_Normal _ _ _ a b) by done.
    pose proof (IH ((k - 1) / 2) Hpk (<[k := a]> (<[(k - 1) / 2 := b]> heap))) as H.
    destruct (bubbleUp _ _ _) as [heap'|]; simpl in *.
    + destruct H as [Hfits Hperm].
      * rewrite !length_insert. lia.
      * by apply (up_inv_swap heap k a b); [..|lia| |].
      * split; [done|]. rewrite Hperm. by apply Permutation_insert_swap.
    + apply H.
      * rewrite !length_insert. lia.
      * by apply (up_inv_swap heap k a b); [..|lia| |].
Qed.

Lemma insert_ordered heap item :
  heap_ordered int_ge heap →
  returns (insert int_ge heap item)
    (λ heap', heap_ordered int_ge heap' ∧ heap' ≡ₚ item :: heap).
Proof.
  intros Hord0. pose proof (proj1 (heap_ordered_fits heap) Hord0) as Hord.
  unfold insert.
  replace (length (heap ++ [item]) - 1) with (length heap)
    by (rewrite length_app; simpl; lia).
  assert (up_inv (heap ++ [item]) (length heap)) as Hinv.
  { split.
    - intros j Hj p c Hj0 Hp Hc.
      pose proof (parent_lt j Hj0).
      pose proof (lookup_lt_Some _ _ _ Hc) as Hlt.
      rewrite length_app in Hlt. simpl in Hlt.
      rewrite lookup_app_l in Hp, Hc by lia. by apply (Hord j p c).
    - intros j g c _ Hj0 Hjk _ Hc.
      pose proof (parent_lt j Hj0).
      apply lookup_lt_Some in Hc. rewrite length_app in Hc. simpl in Hc. lia. }
  pose proof (bubbleUp_ordered (length heap) (heap ++ [item])) as H.
  destruct (bubbleUp _ _ _) as [heap'|]; simpl in *.
  - destruct H as [Hfits Hperm]; [rewrite length_app; simpl; lia|done|].
    split; [by apply heap_ordered_fits|].
    rewrite Hperm. symmetry. apply Permutation_cons_append.
  - apply H; [rewrite length_app; simpl; lia|done].
Qed.

(** *** bubbleDown *)

Lemma pick_int heap child largest a :
  heap !! largest = Some a →
  pick int_gt heap child largest =
    Normal (match heap !! child with
            | Some c => if bool_decide (a.1 < c.1)%Z then child else largest
            | None => largest
            end).
Proof.
  intros Ha. unfold pick, priority. case_bool_decide as Hlt.
  - destruct (lookup_lt_is_Some_2 heap child Hlt) as [c ->]. by rewrite Ha.
  - by rewrite lookup_ge_None_2 by lia.
Qed.

(** The node chosen by one round: [k] itself or a child of [k] above it,
    and in both cases a node that no child of [k] is above. *)
Lemma largest_of_int heap k a :
  heap !! k = Some a →
  ∃ l b, largest_of int_gt heap k = Normal l ∧ heap !! l = Some b
         ∧ (l = k ∨ (l = 2 * k + 1 ∨ l = 2 * k + 2) ∧ (a.1 < b.1)%Z)
         ∧ (a.1 ≤ b.1)%Z
         ∧ (∀ j c, j = 2 * k + 1 ∨ j = 2 * k + 2 → heap !! j = Some c → (c.1 ≤ b.1)%Z).
Proof.
  intros Ha. unfold largest_of. rewrite (pick_int _ _ _ a Ha), bind_Normal.
  assert (∃ l1 b1,
    match heap !! (2 * k + 1) with
    | Some c => if bool_decide (a.1 < c.1)%Z then 2 * k + 1 else k
    | None => k
    end = l1 ∧ heap !! l1 = Some b1
    ∧ (l1 = k ∨ l1 = 2 * k + 1 ∧ (a.1 < b1.1)%Z) ∧ (a.1 ≤ b1.1)%Z
    ∧ (∀ c, heap !! (2 * k + 1) = Some c → (c.1 ≤ b1.1)%Z))
    as (l1 & b1 & -> & Hb1 & Hl1 & Hab1 & Hm1).
  { destruct (heap !! (2 * k + 1)) as [c1|] eqn:H1; [case_bool_decide|].
    - exists (2 * k + 1), c1. split_and!; [done..|right; split; [done|lia]|lia|].
      by intros ? [= <-].
    - exists k, a. split_and!; [done..|by left|lia|]. intros ? [= <-]. lia.
    - exists k, a. split_and!; [done..|by left|lia|done]. }
  rewrite (pick_int _ _ _ b1 Hb1).
  destruct (heap !! (2 * k + 2)) as [c2|] eqn:H2; [case_bool_decide|].
  - exists (2 * k + 2), c2. split_and!; [done..|right; split; [auto|lia]|lia|].
    intros j c [->| ->] Hc.
    + specialize (Hm1 _ Hc). lia.
    + rewrite H2 in Hc. by injection Hc as <-.
  - exists l1, b1. split_and!; [done..| |done|].
    + destruct Hl1 as [?|[? ?]]; [by left|right; split; [auto|lia]].
    + intros j c [->| ->] Hc; [by apply Hm1|].
      rewrite H2 in Hc. injection Hc as <-. lia.
  - exists l1, b1. split_and!; [done..| |done|].
    + destruct Hl1 as [?|[? ?]]; [by left|right; split; [auto|lia]].
    + intros j c [->| ->] Hc; [by apply Hm1|]. by rewrite H2 in Hc.
Qed.

Lemma down_inv_swap heap k l a b heap' :
  l = 2 * k + 1 ∨ l = 2 * k + 2 →
  heap !! k = Some a → heap !! l = Some b →
  (a.1 < b.1)%Z →
  (∀ j c, j = 2 * k + 1 ∨ j = 2 * k + 2 → heap !! j = Some c → (c.1 ≤ b.1)%Z) →
  heap' = <[l := a]> (<[k := b]> heap) →
  down_inv heap k →
  down_inv heap' l.
Proof.
  intros Hl Ha Hb Hlt Hmax Hheap' [Hfit Hgrand].
  assert ((l - 1) / 2 = k) as Hlk by (apply parent_spec; lia).
  destruct (swap_lookup heap k l a b) with (heap' := heap')
    as (Hk' & Hl' & Hother & _); [done|done|lia|done|].
  clear Hheap'. split.
  - intros j Hjl pj cj Hj Hpar Hcj.
    pose proof (parent_lt j Hj).
    destruct (decide (j = l)) as [->|Hne].
    { rewrite Hlk, Hk' in Hpar. rewrite Hl' in Hcj.
      injection Hpar as <-. injection Hcj as <-. lia. }
    destruct (decide (j = k)) as [->|Hnk].
    { rewrite Hk' in Hcj. injection Hcj as <-.
      rewrite Hother in Hpar by lia.
      apply (Hgrand l pj b); [done|lia|done..]. }
    rewrite Hother in Hcj by done.
    destruct (decide ((j - 1) / 2 = k)) as [Hq|Hq].
    { rewrite Hq, Hk' in Hpar. injection Hpar as <-.
      apply (Hmax j cj); [|done]. by apply parent_spec. }
    rewrite Hother in Hpar by done. by apply (Hfit j Hq pj cj).
  - intros j g c _ Hj Hjl Hg Hc.
    pose proof (parent_lt j Hj).
    rewrite Hlk, Hk' in Hg. injection Hg as <-.
    rewrite Hother in Hc by lia.
    apply (Hfit j ltac:(lia) b c Hj); [by rewrite Hjl|done].
Qed.

Lemma bubbleDown_ordered n : ∀ heap k,
  length heap - k = n → k < length heap → down_inv heap k →
  returns (bubbleDown int_gt heap k) (λ heap', (∀ j, fits heap' j) ∧ heap' ≡ₚ heap).
Proof.
  induction n as [n IH] using lt_wf_ind. intros heap k Hn Hlen Hinv.
  rewrite bubbleDown_round.
  destruct (lookup_lt_is_Some_2 heap k Hlen) as [a Ha].
  destruct (largest_of_int heap k a Ha) as (l & b & -> & Hb & Hcase & Hab & Hmax).
  destruct (decide (l = k)) as [->|Hne].
  - split; [|done]. intros j p c Hj Hp Hc.
    destruct (decide ((j - 1) / 2 = k)) as [Hq|Hq];
      [|by apply (proj1 Hinv j Hq p c)].
    rewrite Hq, Hb in Hp. injection Hp as <-.
    apply (Hmax j c); [|done]. by apply parent_spec.
  - destruct Hcase as [?|[Hl Hlt]]; [done|].
    rewrite (swap_Normal _ _ _ a b) by done.
    pose proof (lookup_lt_Some _ _ _ Hb) as Hlen'.
    pose proof (IH (length heap - l) ltac:(lia) (<[l := a]> (<[k := b]> heap)) l) as H.
    destruct (bubbleDown _ _ _) as [heap'|]; simpl in *.
    + destruct H as [Hfits Hperm].
      * by rewrite !length_insert.
      * by rewrite !length_insert.
      * by apply (down_inv_swap heap k l a b).
      * split; [done|]. rewrite Hperm. by apply Permutation_insert_swap.
    + apply H.
      * by rewrite !length_insert.
      * by rewrite !length_insert.
      * by apply (down_inv_swap heap k l a b).
Qed.

(** *** extractMax *)

Lemma pop_split (max : Z * X) rest :
  max :: rest = removelast (max :: rest) ++ [List.last (max :: rest) max].
Proof. by apply app_removelast_last. Qed.

Lemma extractMax_ordered heap :
  heap_ordered int_ge heap → heap ≠ [] →
  returns (extractMax int_gt heap)
    (λ r, heap !! 0 = Some r.1 ∧ heap_ordered int_ge r.2 ∧ r.1 :: r.2 ≡ₚ heap).
Proof.
  intros Hord0 Hne. pose proof (proj1 (heap_ordered_fits heap) Hord0) as Hord.
  destruct heap as [|max rest]; [done|]. unfold extractMax. cbv zeta.
  pose proof (pop_split max rest) as Hsplit.
  revert Hsplit.
  generalize (List.last (max :: rest) max). generalize (removelast (max :: rest)).
  intros [|first popped] lst Hsplit.
  { injection Hsplit as <- ->. simpl.
    split; [done|]. split; [|done]. intros i ? ? Hp. by rewrite lookup_nil in Hp. }
  rewrite bool_decide_eq_true_2 by (simpl; lia).
  injection Hsplit as <- Hrest. simpl (<[0:=lst]> _).
  assert (down_inv (lst :: popped) 0) as Hinv.
  { split; [|intros ? ? ? ?; lia].
    intros j Hq p c Hj Hp Hc.
    pose proof (parent_lt j Hj). pose proof (half_spec (j - 1)).
    apply (Hord j p c Hj); rewrite Hrest.
    - destruct ((j - 1) / 2) as [|q] eqn:E; [done|]. simpl in *.
      by apply lookup_app_l_Some.
    - destruct j as [|j]; [lia|]. simpl in *. by apply lookup_app_l_Some. }
  pose proof (bubbleDown_ordered (length (lst :: popped) - 0) (lst :: popped) 0) as H.
  destruct (bubbleDown _ _ _) as [heap'|]; simpl in *; [|apply H; [lia..|done]].
  destruct H as [Hfits Hperm]; [lia..|done|].
  split; [done|]. split; [by apply heap_ordered_fits|].
  rewrite Hperm, Hrest. constructor. apply Permutation_cons_append.
Qed.

(** The root of an ordered heap has the greatest priority. *)
Lemma heap_ordered_root heap max :
  heap_ordered int_ge heap → heap !! 0 = Some max →
  Forall (λ item, (item.1 ≤ max.1)%Z) heap.
Proof.
  intros Hord0 Hmax. pose proof (proj1 (heap_ordered_fits heap) Hord0) as Hord.
  apply Forall_lookup. intros j.
  induction j as [j IH] using lt_wf_ind. intros item Hj.
  destruct (decide (j = 0)) as [->|Hne].
  { rewrite Hmax in Hj. by injection Hj as <-. }
  pose proof (parent_lt j ltac:(lia)) as Hlt.
  destruct (lookup_lt_is_Some_2 heap ((j - 1) / 2)) as [p Hp].
  { apply lookup_lt_Some in Hj. lia. }
  specialize (IH _ Hlt p Hp).
  pose proof (Hord j p item ltac:(lia) Hp Hj). lia.
Qed.

(** *** Sequences of calls *)

Lemma perform_app (calls1 calls2 : list (call Z X)) heap out :
  perform int_ge int_gt (calls1 ++ calls2) heap out =
    r ← perform int_ge int_gt calls1 heap out; perform int_ge int_gt calls2 r.1 r.2.
Proof.
  revert heap out. induction calls1 as [|[item|] calls1 IH]; intros heap out; simpl.
  - done.
  - destruct (insert int_ge heap item); simpl; [apply IH|done].
  - destruct (extractMax int_gt heap) as [[max heap']|]; simpl; [apply IH|done].
Qed.

Lemma perform_ordered (calls : list (call Z X)) : ∀ heap out,
  heap_ordered int_ge heap →
  match perform int_ge int_gt calls heap out with
  | Normal r => heap_ordered int_ge r.1
  | Throw e => e = Error (str "Heap is empty")
  end.
Proof.
  induction calls as [|[item|] calls IH]; intros heap out Hord; simpl; [done|..].
  - pose proof (insert_ordered heap item Hord) as H.
    destruct (insert int_ge heap item); simpl in *; [|done]. apply IH, H.
  - destruct heap as [|max rest]; [done|].
    pose proof (extractMax_ordered (max :: rest) Hord ltac:(done)) as H.
    destruct (extractMax int_gt _) as [[max' heap']|]; simpl in *; [|done].
    apply IH, H.
Qed.

Lemma perform_inserts (items : list (Z * X)) : ∀ heap out,
  heap_ordered int_ge heap →
  returns (perform int_ge int_gt (Insert <$> items) heap out)
    (λ r, r.2 = out ∧ heap_ordered int_ge r.1 ∧ r.1 ≡ₚ items ++ heap).
Proof.
  induction items as [|item items IH]; intros heap out Hord; simpl; [done|].
  pose proof (insert_ordered heap item Hord) as H.
  destruct (insert int_ge heap item) as [heap'|]; simpl in *; [|done].
  destruct H as [Hord' Hperm]. specialize (IH heap' out Hord').
  destruct (perform _ _ _ _ _) as [r|]; simpl in *; [|done].
  destruct IH as (Hout & Hord'' & Hperm'). split; [done|]. split; [done|].
  rewrite Hperm', Hperm. symmetry. apply Permutation_middle.
Qed.

Lemma perform_extracts n : ∀ heap out,
  heap_ordered int_ge heap → n ≤ length heap →
  returns (perform int_ge int_gt (replicate n ExtractMax) heap out)
    (λ r, ∃ ext, r.2 = out ++ ext ∧ length ext = n
                 ∧ StronglySorted (λ a b, (b.1 ≤ a.1)%Z) ext
                 ∧ ext ++ r.1 ≡ₚ heap).
Proof.
  induction n as [|n IH]; intros heap out Hord Hn; simpl.
  { exists []. rewrite (right_id_L [] (++)). split_and!; [done..|constructor|done]. }
  destruct heap as [|first rest] eqn:Hheap; [simpl in Hn; lia|]. rewrite <-Hheap in *.
  pose proof (extractMax_ordered heap Hord ltac:(by rewrite Hheap)) as H.
  destruct (extractMax int_gt heap) as [[max heap']|]; simpl in *; [|done].
  destruct H as (Hmax & Hord' & Hperm).
  pose proof (heap_ordered_root heap max Hord Hmax) as Hroot.
  specialize (IH heap' (out ++ [max]) Hord').
  destruct (perform _ _ _ _ _) as [r|]; simpl in *.
  2: { apply IH. apply Permutation_length in Hperm. simpl in Hperm. lia. }
  destruct IH as (ext & -> & Hlen & Hsorted & Hperm').
  { apply Permutation_length in Hperm. simpl in Hperm. lia. }
  exists (max :: ext). split_and!.
  - by rewrite <-(assoc_L (++)).
  - simpl. lia.
  - constructor; [done|].
    rewrite <-Hperm, <-Hperm' in Hroot.
    by apply Forall_cons_1, proj2, Forall_app, proj1 in Hroot.
  - simpl. by rewrite Hperm'.
Qed.

End HeapInt.

(** The heap treats priorities through the two comparisons only: a map of
    the priorities that keeps both comparisons commutes with every method. *)
Section HeapEmbed.
Import JS MaxHeap Spec.
Context {P Q X : Type} (f : P → Q).
Context (gebP gtbP : P → P → bool) (gebQ gtbQ : Q → Q → bool).
Hypothesis geb_f : ∀ a b, gebQ (f a) (f b) = gebP a b.
Hypothesis gtb_f : ∀ a b, gtbQ (f a) (f b) = gtbP a b.
Implicit Types heap : list (P * X).

Local Abbreviation F := (map_priority (X:=X) f).
Local Abbreviation Fs := (fmap (M:=list) (map_priority (X:=X) f)).

Lemma priority_embed heap i : priority (F <$> heap) i = f <$> priority heap i.
Proof. unfold priority. rewrite list_lookup_fmap. by destruct (heap !! i). Qed.

Lemma swap_embed heap i j : swap (F <$> heap) i j = Fs <$> swap heap i j.
Proof.
  unfold swap. rewrite !list_lookup_fmap.
  destruct (heap !! j), (heap !! i); simpl; try done.
  by rewrite !list_fmap_insert.
Qed.

Lemma parent_wins_embed heap p i :
  parent_wins gebQ (F <$> heap) p i = parent_wins gebP heap p i.
Proof.
  unfold parent_wins. rewrite !priority_embed.
  destruct (priority heap p), (priority heap i); simpl; by rewrite ?geb_f.
Qed.

Lemma bubbleUp_embed i : ∀ heap,
  bubbleUp gebQ (F <$> heap) i = Fs <$> bubbleUp gebP heap i.
Proof.
  induction i as [i IH] using lt_wf_ind. intros heap.
  rewrite (bubbleUp_round gebQ), (bubbleUp_round gebP heap i).
  destruct (decide (0 < i)); [|done].
  rewrite parent_wins_embed. destruct (parent_wins _ _ _ _) as [[]|]; [done| |done].
  rewrite swap_embed. destruct (swap heap _ _); simpl; [|done].
  by apply IH, parent_lt.
Qed.

Lemma pick_embed heap child largest :
  pick gtbQ (F <$> heap) child largest = pick gtbP heap child largest.
Proof.
  unfold pick. rewrite length_fmap, !priority_embed.
  case_bool_decide; [|done].
  destruct (priority heap child), (priority heap largest); simpl; by rewrite ?gtb_f.
Qed.

Lemma largest_of_embed heap index :
  largest_of gtbQ (F <$> heap) index = largest_of gtbP heap index.
Proof.
  unfold largest_of. rewrite pick_embed.
  destruct (pick gtbP heap _ index); simpl; [apply pick_embed|done].
Qed.

Lemma bubbleDown_embed n : ∀ heap index,
  length heap - index = n →
  bubbleDown gtbQ (F <$> heap) index = Fs <$> bubbleDown gtbP heap index.
Proof.
  induction n as [n IH] using lt_wf_ind. intros heap index Hn.
  rewrite (bubbleDown_round gtbQ), (bubbleDown_round gtbP heap index).
  rewrite largest_of_embed.
  destruct (largest_of gtbP heap index) as [largest|] eqn:Hl; [|done].
  destruct (decide (largest = index)); [done|].
  rewrite swap_embed. destruct (swap heap _ _) as [heap'|] eqn:Hs; simpl; [|done].
  apply largest_of_range in Hl as [?|?]; [done|].
  unfold swap in Hs.
  destruct (heap !! largest); [|done]. destruct (heap !! index); [|done].
  injection Hs as <-.
  apply (IH (length heap - largest)); [lia|]. by rewrite !length_insert.
Qed.

Lemma insert_embed heap item :
  insert gebQ (F <$> heap) (F item) = Fs <$> insert gebP heap item.
Proof.
  unfold insert. rewrite !length_app, length_fmap.
  change [F item] with (F <$> [item]). rewrite <-fmap_app. apply bubbleUp_embed.
Qed.

Lemma extractMax_embed heap :
  extractMax gtbQ (F <$> heap) = prod_map F Fs <$> extractMax gtbP heap.
Proof.
  destruct heap as [|max rest]; [done|]. unfold extractMax.
  rewrite fmap_cons. cbv zeta. rewrite <-fmap_cons.
  rewrite (app_removelast_last max (l:=max :: rest)) by done.
  generalize (List.last (max :: rest) max). generalize (removelast (max :: rest)).
  intros popped lst. rewrite fmap_app. simpl (F <$> [lst]).
  rewrite !removelast_last, !last_last, length_fmap.
  case_bool_decide; [|done].
  rewrite <-list_fmap_insert.
  rewrite (bubbleDown_embed _ _ 0 eq_refl).
  by destruct (bubbleDown gtbP _ 0).
Qed.

Lemma perform_embed (calls : list (call P X)) : ∀ heap out,
  perform gebQ gtbQ (map_call f <$> calls) (F <$> heap) (F <$> out) =
    prod_map Fs Fs <$> perform gebP gtbP calls heap out.
Proof.
  induction calls as [|[item|] calls IH]; intros heap out; simpl; [done|..].
  - rewrite insert_embed. destruct (insert gebP heap item); simpl; [apply IH|done].
  - rewrite extractMax_embed.
    destruct (extractMax gtbP heap) as [[max heap']|]; simpl; [|done].
    change [F max] with (F <$> [max]). rewrite <-fmap_app. apply IH.
Qed.

Lemma heap_ordered_embed heap :
  heap_ordered gebP heap → heap_ordered gebQ (F <$> heap).
Proof.
  intros Hord i parent child. rewrite !list_lookup_fmap.
  destruct (heap !! i) as [p|] eqn:Hp; [|done]. intros [= <-] Hc.
  assert (∃ c, child = F c ∧ (heap !! (2 * i + 1) = Some c ∨ heap !! (2 * i + 2) = Some c))
    as (c & -> & Hc').
  { destruct Hc as [Hc|Hc];
      [destruct (heap !! (2 * i + 1)) as [c|]|destruct (heap !! (2 * i + 2)) as [c|]];
      simplify_eq/=; eauto. }
  simpl. rewrite geb_f. by apply (Hord i).
Qed.

End HeapEmbed.

Section HeapClaim.
Import JS MaxHeap Spec.
Context {X : Type}.

Lemma heap_ordered_nil {P : Type} (geb : P → P → bool) : heap_ordered (X:=X) geb [].
Proof. intros i ? ? Hp. by rewrite lookup_nil in Hp. Qed.

Lemma perform_numbers (calls : list (call Z X)) :
  perform num_ge num_gt (map_call Num <$> calls) [] [] =
    prod_map (fmap (M:=list) (map_priority Num)) (fmap (M:=list) (map_priority Num))
      <$> perform int_ge int_gt calls [] [].
Proof.
  exact (perform_embed Num int_ge int_gt num_ge num_gt
           (λ _ _, eq_refl) (λ _ _, eq_refl) calls [] []).
Qed.

(** C5. The methods are called on a heap that starts empty, with integer
    priorities. After every sequence of calls of [insert] and [extractMax]
    the array satisfies the heap invariant (a call of [extractMax] on the
    empty heap throws "Heap is empty"). After the insertion of [items],
    [n] extractions, for every [n] up to the number of items, return that
    many of the items, in an order of non-increasing priority, and leave
    the other items in the heap. *)
Theorem extractMax_order :
  (∀ calls : list (call Z X),
     match perform num_ge num_gt (map_call Num <$> calls) [] [] with
     | Normal r => heap_ordered num_ge r.1
     | Throw e => e = Error (str "Heap is empty")
     end)
  ∧ (∀ (items : list (Z * X)) (n : nat),
       returns
         (perform num_ge num_gt
            (map_call Num <$> (Insert <$> items) ++ replicate (n `min` length items) ExtractMax)
            [] [])
         (λ r, length r.2 = n `min` length items
               ∧ Sorted (λ a b, num_ge a.1 b.1 = true) r.2
               ∧ r.2 ++ r.1 ≡ₚ map_priority Num <$> items)).
Proof.
  split.
  - intros calls. rewrite perform_numbers.
    pose proof (perform_ordered calls [] [] (heap_ordered_nil int_ge)) as H.
    destruct (perform int_ge int_gt calls [] []) as [r|]; simpl; [|done].
    by apply (heap_ordered_embed Num int_ge).
  - intros items n. rewrite perform_numbers, perform_app.
    pose proof (perform_inserts items [] [] (heap_ordered_nil int_ge)) as H.
    destruct (perform int_ge int_gt (Insert <$> items) [] []) as [r|]; simpl in *; [|done].
    destruct H as (-> & Hord & Hperm). rewrite (right_id_L [] (++)) in Hperm.
    pose proof (perform_extracts (n `min` length items) r.1 [] Hord) as H.
    destruct (perform int_ge int_gt _ r.1 []) as [r'|]; simpl in *.
    2: { apply H. apply Permutation_length in Hperm. lia. }
    destruct H as (ext & -> & Hlen & Hsorted & Hperm').
    { apply Permutation_length in Hperm. lia. }
    split_and!.
    + by rewrite length_fmap.
    + apply (Sorted_fmap _ (λ a b, (b.1 ≤ a.1)%Z)).
      * intros a b Hab. by apply bool_decide_eq_true_2.
      * by apply StronglySorted_Sorted.
    + by rewrite <-fmap_app, Hperm', Hperm.
Qed.

End HeapClaim.

(** ** train *)

(** The main loop never reads [this]: the local variables evolve on their
    own, and the object is extended by the merged tokens, one at a time. *)
Section TrainLoop.
Import JS BPE Spec.

Lemma loop_this k : ∀ this l,
  (loop k this l).2 = foldl add_token this (merges k l).
Proof.
  induction k as [|k IH]; intros this l; simpl; [done|].
  unfold iteration. destruct (pop l) as [l'|newToken l'|e]; simpl; [done| |done].
  destruct (rescan newToken l') as [l''|e]; simpl; [apply IH|done].
Qed.

Lemma loop_locals k : ∀ this this' l, (loop k this l).1 = (loop k this' l).1.
Proof.
  induction k as [|k IH]; intros this this' l; simpl; [done|].
  unfold iteration. destruct (pop l) as [l'|newToken l'|e]; simpl; [done| |done].
  destruct (rescan newToken l') as [l''|e]; simpl; [apply IH|done].
Qed.

Lemma run_this this corpus k :
  (run this corpus k).2 = foldl add_token this (merged_tokens corpus k).
Proof.
  unfold run, merged_tokens. destruct (start corpus); [apply loop_this|done].
Qed.

Lemma run_locals this this' corpus k :
  (run this corpus k).1 = (run this' corpus k).1.
Proof. unfold run. destruct (start corpus); [apply loop_locals|done]. Qed.

Lemma model_add_token this newToken :
  model (add_token this newToken) =
    model_assign (model this) newToken (next_id (model this)).
Proof. done. Qed.

Lemma model_add_tokens ts : ∀ this,
  model (foldl add_token this ts) =
    foldl (λ m t, model_assign m t (next_id m)) (model this) ts.
Proof. induction ts as [|t ts IH]; intros this; simpl; [done|]. by rewrite IH. Qed.

(** What [train] leaves and returns, when [run] does not throw. *)
Lemma train_returns this f corpus save k l :
  (run this corpus k).1 = Normal l →
  train this f (VStr corpus) save k =
    let this' := foldl add_token this (merged_tokens corpus k) in
    mkOutcome (Normal (model this')) this' (if save then Some (model this') else f).
Proof.
  intros Hl. unfold train. rewrite <-run_this.
  destruct (run this corpus k) as [c this']. simpl in *. by subst c.
Qed.

End TrainLoop.

(** No statement reached from [train] throws the error of its first line. *)
Section Throws.
Import JS MaxHeap BPE Spec.

Lemma priority_throws {P X : Type} (heap : list (P * X)) i e :
  priority heap i = Throw e → e = TypeError.
Proof. unfold priority. destruct (heap !! i); congruence. Qed.

Lemma swap_throws {P X : Type} (heap : list (P * X)) i j e :
  swap heap i j = Throw e → e = TypeError.
Proof. unfold swap. destruct (heap !! j), (heap !! i); congruence. Qed.

Lemma parent_wins_throws {P X : Type} (geb : P → P → bool) (heap : list (P * X)) p i e :
  parent_wins geb heap p i = Throw e → e = TypeError.
Proof.
  unfold parent_wins.
  destruct (priority heap p) eqn:Hp; simpl; [|intros [= <-]; by eapply priority_throws].
  destruct (priority heap i) eqn:Hi; simpl; [done|intros [= <-]; by eapply priority_throws].
Qed.

Lemma pick_throws {P X : Type} (gtb : P → P → bool) (heap : list (P * X)) c l e :
  pick gtb heap c l = Throw e → e = TypeError.
Proof.
  unfold pick. case_bool_decide; [|done].
  destruct (priority heap c) eqn:Hp; simpl; [|intros [= <-]; by eapply priority_throws].
  destruct (priority heap l) eqn:Hi; simpl; [done|intros [= <-]; by eapply priority_throws].
Qed.

Lemma largest_of_throws {P X : Type} (gtb : P → P → bool) (heap : list (P * X)) i e :
  largest_of gtb heap i = Throw e → e = TypeError.
Proof.
  unfold largest_of. destruct (pick gtb heap _ i) eqn:Hp; simpl.
  - apply pick_throws.
  - intros [= <-]. by eapply pick_throws.
Qed.

Lemma bubbleUp_throws {P X : Type} (geb : P → P → bool) i : ∀ (heap : list (P * X)) e,
  bubbleUp geb heap i = Throw e → e = TypeError.
Proof.
  induction i as [i IH] using lt_wf_ind. intros heap e.
  rewrite bubbleUp_round. destruct (decide (0 < i)); [|done].
  destruct (parent_wins _ _ _ _) as [[]|] eqn:Hw; [done|..].
  - destruct (swap _ _ _) eqn:Hs.
    + by apply IH, parent_lt.
    + intros [= <-]. by eapply swap_throws.
  - intros [= <-]. by eapply parent_wins_throws.
Qed.

Lemma bubbleDown_throws {P X : Type} (gtb : P → P → bool) n :
  ∀ (heap : list (P * X)) index e,
    length heap - index = n →
    bubbleDown gtb heap index = Throw e → e = TypeError.
Proof.
  induction n as [n IH] using lt_wf_ind. intros heap index e Hn.
  rewrite bubbleDown_round.
  destruct (largest_of gtb heap index) as [largest|e'] eqn:Hl.
  2: { intros [= <-]. by eapply largest_of_throws. }
  destruct (decide (largest = index)); [done|].
  apply largest_of_range in Hl as [?|?]; [done|].
  destruct (swap heap index largest) as [heap'|] eqn:Hs.
  2: { intros [= <-]. by eapply swap_throws. }
  apply (IH (length heap - largest)); [lia|].
  unfold swap in Hs. destruct (heap !! largest); [|done].
  destruct (heap !! index); [|done].
  injection Hs as <-. by rewrite !length_insert.
Qed.

Lemma insert_throws {P X : Type} (geb : P → P → bool) (heap : list (P * X)) item e :
  insert geb heap item = Throw e → internal e.
Proof. intros ->%bubbleUp_throws. by left. Qed.

Lemma extractMax_throws {P X : Type} (gtb : P → P → bool) (heap : list (P * X)) e :
  extractMax gtb heap = Throw e → internal e.
Proof.
  unfold extractMax. destruct heap as [|max rest]; [intros [= <-]; by right|].
  cbv zeta. case_bool_decide; [|done].
  destruct (bubbleDown _ _ _) eqn:Hd; [done|]. simpl. intros [= <-].
  apply bubbleDown_throws with (n := length (<[0:=List.last (max :: rest) max]>
    (removelast (max :: rest))) - 0) in Hd as ->; [by left|done].
Qed.

Lemma seed_throws pairFreqs e : seed pairFreqs = Throw e → internal e.
Proof.
  unfold seed. generalize (entries pairFreqs). intros es.
  assert (∀ e, Normal (A:=list (jsnum * pairval)) [] = Throw e → internal e) by done.
  revert H. generalize (Normal (A:=list (jsnum * pairval)) []).
  induction es as [|[p v] es IH]; intros c Hc; simpl; [by apply Hc|].
  apply IH. intros e'. destruct c as [h|e'']; simpl.
  - apply insert_throws.
  - apply Hc.
Qed.

Lemma start_throws corpus e : start corpus = Throw e → internal e.
Proof.
  unfold start. destruct (count_pairs _) as [pf tp].
  destruct (seed pf) eqn:Hs; [done|]. simpl. intros [= <-]. by eapply seed_throws.
Qed.

Lemma count_and_push_throws l ntp p idx e :
  count_and_push l ntp p idx = Throw e → internal e.
Proof.
  unfold count_and_push. destruct (insert _ _ _) eqn:Hi; [done|].
  simpl. intros [= <-]. by eapply insert_throws.
Qed.

Lemma rescan_at_throws newToken j st e :
  rescan_at newToken j st = Throw e → internal e.
Proof.
  unfold rescan_at. destruct st as [l ntp].
  destruct (tokenPairs l !! j) as [[left' right']|]; [|intros [= <-]; by left].
  case_decide; [|done]. cbn [tokens pairFreqs tokenPairs heap].
  match goal with |- context [mbind _ ?c] =>
    assert (∀ e, c = Throw e → internal e) as Hc;
      [|destruct c as [[l' ntp']|e']]
  end.
  { intros e0. case_bool_decide; [|intros ?; discriminate].
    destruct (tokenPairs l !! (j - 1)) as [[? ?]|]; [|intros [= <-]; by left].
    apply count_and_push_throws. }
  2: { simpl. intros [= <-]. by apply Hc. }
  clear Hc. rewrite bind_Normal. case_bool_decide; [|intros ?; discriminate].
  destruct (tokenPairs l' !! (j + 1)) as [[? ?]|]; [|intros [= <-]; by left].
  apply count_and_push_throws.
Qed.

Lemma rescan_from_throws newToken n : ∀ j st e,
  rescan_from newToken j n st = Throw e → internal e.
Proof.
  induction n as [|n IH]; intros j st e; simpl; [done|].
  destruct (rescan_at newToken j st) eqn:Hr; simpl; [apply IH|].
  intros [= <-]. by eapply rescan_at_throws.
Qed.

Lemma rescan_throws newToken l e : rescan newToken l = Throw e → internal e.
Proof.
  unfold rescan. destruct (rescan_from _ _ _ _) as [[l' ntp]|e'] eqn:Hr; [done|].
  simpl. intros [= <-]. by eapply rescan_from_throws.
Qed.

Lemma pop_throws l e : pop l = Fail e → internal e.
Proof.
  unfold pop. destruct (isEmpty _); [done|].
  destruct (extractMax _ _) as [[[negFreq best] h]|e'] eqn:He.
  - case_decide; [done|]. destruct best; [done|]. intros [= <-]. by left.
  - intros [= <-]. by eapply extractMax_throws.
Qed.

Lemma loop_throws k : ∀ this l e this',
  loop k this l = (Throw e, this') → internal e.
Proof.
  induction k as [|k IH]; intros this l e this'; simpl; [done|].
  unfold iteration. destruct (pop l) as [l'|newToken l'|e'] eqn:Hp; [done|..].
  - destruct (rescan newToken l') eqn:Hr; [apply IH|].
    intros [= <- _]. by eapply rescan_throws.
  - intros [= <- _]. by eapply pop_throws.
Qed.

Lemma run_throws this corpus k e this' :
  run this corpus k = (Throw e, this') → internal e.
Proof.
  unfold run. destruct (start corpus) eqn:Hs; [apply loop_throws|].
  intros [= <- _]. by eapply start_throws.
Qed.

End Throws.

Section TrainScenarios.
Import JS BPE Spec.

(** C4. On the corpus "aaa" the tokens start as [a, a, a] and the one pair
    "aa" is counted twice, at 0-1 and 1-2. With an empty vocabulary and
    [k = 1], the loop merges "aa" once: the vocabulary becomes
    [{"aa": 1}], which [train] returns, and the tokens become [aa, a]. *)
Theorem train_aaa (this : BPE.BPE) (f : file) (save : bool) :
  model this = ∅ →
  start (str "aaa") =
    Normal {| tokens := [Some (str "a"); Some (str "a"); Some (str "a")];
              pairFreqs := [(str "aa", FCount 2)];
              tokenPairs := [(0, 1); (1, 2)];
              heap := [(Num (-2), PStr (str "aa"))] |}
  ∧ merged_tokens (str "aaa") 1 = [str "aa"]
  ∧ (∃ l, run this (str "aaa") 1 = (Normal l, add_token this (str "aa"))
          ∧ tokens l = [Some (str "aa"); Some (str "a")])
  ∧ model (add_token this (str "aa")) = {[ str "aa" := 1%Z ]}
  ∧ returned (train this f (VStr (str "aaa")) save 1) = Normal {[ str "aa" := 1%Z ]}.
Proof.
  intros Hm.
  assert (merged_tokens (str "aaa") 1 = [str "aa"]) as Hts by (by vm_compute).
  assert (model (add_token this (str "aa")) = {[ str "aa" := 1%Z ]}) as Hmodel.
  { rewrite model_add_token, Hm. by vm_compute. }
  assert (∃ l, (run this (str "aaa") 1).1 = Normal l
               ∧ tokens l = [Some (str "aa"); Some (str "a")]) as (l & Hl & Htok).
  { rewrite (run_locals this fresh). eexists. split; by vm_compute. }
  split; [by vm_compute|]. split; [done|]. split; [|split; [done|]].
  - exists l. split; [|done].
    rewrite (surjective_pairing (run _ _ _)), Hl, run_this, Hts. done.
  - rewrite (train_returns _ _ _ _ _ l Hl), Hts. exact (f_equal Normal Hmodel).
Qed.

Lemma train_aaa_witness :
  returned (train fresh None (VStr (str "aaa")) false 1) = Normal {[ str "aa" := 1%Z ]}.
Proof. apply (train_aaa fresh None false). reflexivity. Defined.

(** C2 fails on the code: a fused token is counted and pushed with a wrong
    right neighbour, because [tokenPairs] holds the indices from before the
    [splice]. On "aaa" the fusion at 0-1 leaves [aa, a]; the pair with the
    right neighbour is "aaa", but the code reads [tokens[2]], which is
    [undefined], and counts and pushes "aaundefined". On "abcabcab" the
    two fusions of "bc" leave [a, bc, a, bc, a, b]; the right neighbour
    of each "bc" is "a", but the code counts "bcb" twice and "bca" never. *)
Theorem rescan_counts_stale_neighbour (this : BPE.BPE) :
  (∃ l, (run this (str "aaa") 1).1 = Normal l
        ∧ tokens l = [Some (str "aa"); Some (str "a")]
        ∧ pairFreqs l = [(str "aa", FCount 2); (str "aaundefined", FCount 1)]
        ∧ heap l = [(Num (-1), PStr (str "aaundefined"))]
        ∧ own (pairFreqs l) (str "aaa") = None)
  ∧ (∃ l, (run this (str "abcabcab") 1).1 = Normal l
          ∧ tokens l = [Some (str "a"); Some (str "bc"); Some (str "a");
                        Some (str "bc"); Some (str "a"); Some (str "b")]
          ∧ own (pairFreqs l) (str "bcb") = Some (FCount 2)
          ∧ own (pairFreqs l) (str "bca") = None).
Proof.
  split; rewrite (run_locals this fresh); eexists; split_and!; by vm_compute.
Qed.

Lemma loop_stop k this l l' :
  pop l = Stop l' → loop (S k) this l = (Normal l', this) ∧ merges (S k) l = [].
Proof. intros Hp. simpl. unfold iteration. by rewrite Hp. Qed.

(** C6. When the item popped has the priority [-1], that is frequency 1,
    the round ends the loop: nothing is merged, the object and the tokens
    stay as they are. On "abcd" every pair has frequency 1, so for every
    [k >= 1] the loop stops at its first round, after one pop, and [train]
    returns the vocabulary it started with. *)
Theorem train_stops_at_frequency_one :
  (∀ this l negFreq best h k,
     MaxHeap.isEmpty (heap l) = false →
     MaxHeap.extractMax num_gt (heap l) = Normal ((negFreq, best), h) →
     neg negFreq = Num 1 →
     loop (S k) this l =
       (Normal (mkLocals (tokens l) (pairFreqs l) (tokenPairs l) h), this)
     ∧ merges (S k) l = [])
  ∧ (∀ this f save k,
       (1 ≤ k)%Z →
       (∃ h, start (str "abcd") =
               Normal {| tokens := [Some (str "a"); Some (str "b");
                                    Some (str "c"); Some (str "d")];
                         pairFreqs := [(str "ab", FCount 1); (str "bc", FCount 1);
                                       (str "cd", FCount 1)];
                         tokenPairs := [(0, 1); (1, 2); (2, 3)];
                         heap := h |}
             ∧ Forall (λ item, item.1 = Num (-1)) h)
       ∧ merged_tokens (str "abcd") k = []
       ∧ (∃ l, run this (str "abcd") k = (Normal l, this) ∧ length (heap l) = 2)
       ∧ train this f (VStr (str "abcd")) save k =
           mkOutcome (Normal (model this)) this (if save then Some (model this) else f)).
Proof.
  split.
  - intros this l negFreq best h k Hne Hpop Hfreq. apply loop_stop.
    unfold pop. rewrite Hne, Hpop. by rewrite decide_True.
  - intros this f save k Hk.
    destruct (Z.to_nat k) as [|n] eqn:Hn; [lia|].
    destruct (start (str "abcd")) as [l0|] eqn:Hstart; [|by vm_compute in Hstart].
    assert (∃ l', pop l0 = Stop l' ∧ length (heap l') = 2) as (l' & Hpop & Hlen).
    { vm_compute in Hstart. injection Hstart as <-. eexists. split; by vm_compute. }
    destruct (loop_stop n this l0 l' Hpop) as [Hloop Hmerges].
    assert (merged_tokens (str "abcd") k = []) as Hts.
    { unfold merged_tokens. by rewrite Hstart, Hn. }
    assert (run this (str "abcd") k = (Normal l', this)) as Hrun.
    { unfold run. by rewrite Hstart, Hn, Hloop. }
    split_and!.
    + vm_compute in Hstart. injection Hstart as <-. eexists. split; [by vm_compute|].
      repeat constructor.
    + done.
    + by exists l'.
    + rewrite (train_returns _ _ _ _ _ l'), Hts; [done|]. by rewrite Hrun.
Qed.

Lemma train_stops_at_frequency_one_witness :
  let l := {| tokens := [Some (str "a"); Some (str "b")];
              pairFreqs := [(str "ab", FCount 1)];
              tokenPairs := [(0, 1)];
              heap := [(Num (-1), PStr (str "ab"))] |} in
  (loop 1 fresh l = (Normal (mkLocals (tokens l) (pairFreqs l) (tokenPairs l) []), fresh)
   ∧ merges 1 l = [])
  ∧ train fresh None (VStr (str "abcd")) false 3 = mkOutcome (Normal (model fresh)) fresh None.
Proof.
  destruct train_stops_at_frequency_one as [H1 H2]. split.
  - apply (H1 fresh _ (Num (-1)) (PStr (str "ab")) [] 0); reflexivity.
  - apply (H2 fresh None false 3%Z). lia.
Defined.

(** C10. When fewer than two code units of the corpus are left after the
    removal of every '%', there is no pair and the heap starts empty; the
    loop ends at its first test, for every [k], nothing is merged and
    [train] returns the vocabulary it started with. *)
Theorem train_short_corpus this f corpus save k :
  length (replace_all_percent corpus) < 2 →
  start corpus =
    Normal (mkLocals (Some <$> split_units (replace_all_percent corpus)) [] [] [])
  ∧ merged_tokens corpus k = []
  ∧ train this f (VStr corpus) save k =
      mkOutcome (Normal (model this)) this (if save then Some (model this) else f).
Proof.
  intros Hlen.
  assert (start corpus =
    Normal (mkLocals (Some <$> split_units (replace_all_percent corpus)) [] [] []))
    as Hstart.
  { unfold start, count_pairs, split_units. rewrite !length_fmap.
    by replace (length (replace_all_percent corpus) - 1) with 0 by lia. }
  set (l0 := mkLocals _ [] [] []) in *.
  assert (∀ n this, loop n this l0 = (Normal l0, this) ∧ merges n l0 = []) as Hloop.
  { intros [|n] this'; [done|]. by apply loop_stop. }
  assert (merged_tokens corpus k = []) as Hts.
  { unfold merged_tokens. rewrite Hstart. apply Hloop, this. }
  split_and!; [done..|].
  rewrite (train_returns _ _ _ _ _ l0), Hts; [done|].
  unfold run. rewrite Hstart. by rewrite (proj1 (Hloop _ _)).
Qed.

Lemma train_short_corpus_witness :
  train fresh None (VStr (str "%a%")) true 500 =
    mkOutcome (Normal (model fresh)) fresh (Some (model fresh)).
Proof. apply (train_short_corpus fresh None (str "%a%") true 500). vm_compute. lia. Defined.

(** C7. [train] throws the error "Cannot train nonstring" exactly when
    [corpus] is not a string, and then the object (vocabulary, trie,
    [trained]) and the vocabulary file are as they were before the call. *)
Theorem train_nonstring this f corpus save k :
  let o := train this f corpus save k in
  (returned o = Throw (Error (str "Cannot train nonstring")) ↔ is_string corpus = false)
  ∧ (returned o = Throw (Error (str "Cannot train nonstring")) →
     this_after o = this ∧ file_after o = f).
Proof.
  assert (∀ s, returned (train this f (VStr s) save k)
               ≠ Throw (Error (str "Cannot train nonstring"))) as Hstr.
  { intros s. unfold train. destruct (run this s k) as [[l|e] this'] eqn:Hrun; [done|].
    apply run_throws in Hrun as [->| ->]; simpl; discriminate. }
  destruct corpus; simpl; try done.
  split; [|intros H; by apply Hstr in H].
  split; [intros H; by apply Hstr in H|done].
Qed.

Lemma train_nonstring_witness :
  this_after (train fresh None (VNum 7) true 500) = fresh
  ∧ file_after (train fresh None (VNum 7) true 500) = None.
Proof. by apply (train_nonstring fresh None (VNum 7) true 500). Defined.

End TrainScenarios.

(** ** The ids of the vocabulary *)

(** ** At most one merge in a call *)

Section Objects.
Import JS BPE Spec MaxHeap.

Lemma own_put_eq o key v : own (put o key v) key = Some v.
Proof.
  induction o as [|[k w] o IH]; simpl; [by rewrite decide_True|].
  destruct (decide (k = key)) as [->|]; simpl;
    [by rewrite decide_True|by rewrite decide_False].
Qed.

Lemma own_elem o key v : own o key = Some v → (key, v) ∈ o.
Proof.
  induction o as [|[k w] o IH]; simpl; [done|].
  destruct (decide (k = key)) as [->|].
  - intros [= ->]. by left.
  - intros ?%IH. by right.
Qed.

Lemma elem_put o key v kv : kv ∈ put o key v → kv = (key, v) ∨ kv ∈ o.
Proof.
  induction o as [|[k w] o IH]; simpl.
  { intros ->%list_elem_of_singleton. by left. }
  destruct (decide (k = key)) as [->|].
  - intros [->|?]%elem_of_cons; [by left|right; by right].
  - intros [->|[?|?]%IH]%elem_of_cons; [right; by left|by left|right; by right].
Qed.

Lemma inherited_length key : inherited key = true → 7 ≤ length key.
Proof.
  unfold inherited. intros H%bool_decide_eq_true.
  let l := eval vm_compute in object_prototype_keys in
    change object_prototype_keys with l in H.
  repeat (apply elem_of_cons in H as [->|H]; [simpl; lia|]).
  by apply elem_of_nil in H.
Qed.

(** The key of a pair made of a merged token of two code units and of a
    neighbour is not a name that objects inherit. *)
Lemma inherited_neighbour (newToken x : jsstring) :
  length newToken = 2 → x = str "undefined" ∨ length x ≤ 2 →
  inherited (x ++ newToken) = false ∧ inherited (newToken ++ x) = false.
Proof.
  intros Hn Hx.
  destruct newToken as [|a [|b [|? ?]]]; try done.
  destruct Hx as [->|Hx].
  - split; apply bool_decide_eq_false; intros H;
      let l := eval vm_compute in object_prototype_keys in
        change object_prototype_keys with l in H;
      let s := eval vm_compute in (str "undefined") in
        change (str "undefined") with s in H; simpl in H;
      repeat (apply elem_of_cons in H as [H|H]; [discriminate H|]);
      by apply elem_of_nil in H.
  - split; apply not_true_iff_false; intros H%inherited_length;
      rewrite length_app in H; simpl in H; lia.
Qed.

Lemma increment_elem o key :
  counted o → inherited key = false →
  ∃ n, (1 ≤ n)%Z
    ∧ minus (increment o key) key = Num (- n)
    ∧ (n = 1 ∨ (key, FCount (n - 1)) ∈ o)%Z
    ∧ ((∀ v, (key, v) ∉ o) → n = 1%Z)
    ∧ ∀ kv, kv ∈ increment o key → kv = (key, FCount n) ∨ kv ∈ o.
Proof.
  intros Ho Hkey.
  assert (key ≠ proto_key) as Hproto.
  { intros ->. by vm_compute in Hkey. }
  assert (∃ n, plus_one o key = FCount n ∧ (1 ≤ n)%Z
               ∧ (n = 1 ∨ (key, FCount (n - 1)) ∈ o)%Z
               ∧ ((∀ v, (key, v) ∉ o) → n = 1%Z)
               ∧ increment o key = put o key (FCount n))
    as (n & Hplus & Hn & Hprev & Hnew & Hinc).
  { unfold increment, assign, plus_one.
    destruct (own o key) as [v|] eqn:Hown.
    - apply own_elem in Hown. destruct (Ho _ _ Hown) as (n & -> & Hn).
      exists (n + 1)%Z. split; [done|]. split; [lia|]. split.
      + right. by replace (n + 1 - 1)%Z with n by lia.
      + split; [|done]. intros Hnot. by destruct (Hnot (FCount n)).
    - rewrite Hkey, decide_False by done. exists 1%Z. repeat split; auto; lia. }
  rewrite Hinc. exists n. split; [done|]. split; [|split; [done|split; [done|]]].
  - unfold minus. by rewrite own_put_eq.
  - intros kv. apply elem_put.
Qed.

Lemma increment_counted o key :
  counted o → inherited key = false → counted (increment o key).
Proof.
  intros Ho Hkey. destruct (increment_elem o key Ho Hkey) as (n & Hn & _ & _ & _ & H).
  intros k v [[= -> ->]|Hin]%H; [eauto|by apply (Ho k)].
Qed.

Lemma entries_elem o kv : kv ∈ entries o → kv ∈ o.
Proof.
  unfold entries. intros [H|H]%elem_of_app.
  - apply list_elem_of_fmap in H as ([i kv'] & -> & H).
    rewrite merge_sort_Permutation in H.
    apply list_elem_of_omap in H as (x & Hx & Hf).
    destruct (array_index x.1); simplify_eq/=. done.
  - by apply list_elem_of_filter in H as [_ H].
Qed.

End Objects.

Section Heaped.
Import JS BPE Spec MaxHeap.

Lemma heaped_nil : heaped [].
Proof.
  exists []. split; [done|]. split; [|done].
  intros i ? ? Hp. by rewrite lookup_nil in Hp.
Qed.

Lemma heaped_insert h z x :
  heaped h → (z ≤ -1)%Z →
  ∃ h', MaxHeap.insert num_ge h (Num z, x) = Normal h' ∧ heaped h'
        ∧ h' ≡ₚ (Num z, x) :: h.
Proof.
  intros (hz & -> & Hord & Hle) Hz.
  pose proof (insert_embed Num int_ge num_ge (λ _ _, eq_refl) hz (z, x)) as Hemb.
  pose proof (insert_ordered hz (z, x) Hord) as Hins.
  change (map_priority Num (z, x)) with (Num z, x) in Hemb. rewrite Hemb.
  destruct (insert int_ge hz (z, x)) as [hz'|]; simpl in *; [|done].
  destruct Hins as [Hord' Hperm].
  exists (map_priority Num <$> hz'). split; [done|]. split.
  - exists hz'. split; [done|]. split; [done|].
    rewrite Hperm. by constructor.
  - by rewrite Hperm.
Qed.

Lemma heaped_extractMax h :
  heaped h → h ≠ [] →
  ∃ z x h', extractMax num_gt h = Normal ((Num z, x), h') ∧ heaped h'
            ∧ (Num z, x) ∈ h ∧ (z ≤ -1)%Z
            ∧ ∀ z' x', (Num z', x') ∈ h → (z' ≤ z)%Z.
Proof.
  intros (hz & -> & Hord & Hle) Hne.
  assert (hz ≠ []) as Hne' by (by intros ->).
  pose proof (extractMax_embed Num int_gt num_gt (λ _ _, eq_refl) hz) as Hemb.
  pose proof (extractMax_ordered hz Hord Hne') as Hext.
  rewrite Hemb.
  destruct (extractMax int_gt hz) as [[[z x] hz']|]; simpl in *; [|done].
  destruct Hext as (Hroot & Hord' & Hperm).
  assert ((z, x) ∈ hz) as Hin by (by apply list_elem_of_lookup_2 in Hroot).
  exists z, x, (map_priority Num <$> hz'). split; [done|]. split; [|split; [|split]].
  - exists hz'. split; [done|]. split; [done|].
    rewrite <-Hperm in Hle. by apply Forall_cons in Hle as [_ ?].
  - apply list_elem_of_fmap. by exists (z, x).
  - by apply (proj1 (Forall_forall _ _) Hle (z, x)).
  - intros z' x' ([z'' x''] & [= <- <-] & Hin')%list_elem_of_fmap.
    by apply (proj1 (Forall_forall _ _) (heap_ordered_root hz (z, x) Hord Hroot) (z', x')).
Qed.

(** With a pair of frequency one in the heap, the main loop stops at its
    next round. *)
Lemma pop_has_one l :
  heaped (heap l) → has_one (heap l) → ∃ l', pop l = Stop l'.
Proof.
  intros Hh [pair' Hone]. unfold pop.
  destruct (heap l) as [|item rest] eqn:Hheap; [by apply elem_of_nil in Hone|].
  simpl isEmpty. cbv iota.
  destruct (heaped_extractMax (item :: rest)) as (z & x & h' & -> & _ & _ & Hz & Hmax);
    [done..|].
  specialize (Hmax _ _ Hone). replace z with (-1)%Z by lia. simpl.
  eauto.
Qed.

End Heaped.

Section Start.
Import JS BPE Spec MaxHeap.

Lemma replace_first_percent_id s :
  Forall (λ u, u ≠ percent) s → replace_first_percent s = s.
Proof.
  induction 1 as [|u s Hu _ IH]; simpl; [done|].
  rewrite decide_False by done. by rewrite IH.
Qed.

Lemma tokens_unit corpus :
  Forall unit_token (Some <$> split_units (replace_all_percent corpus)).
Proof.
  unfold split_units, replace_all_percent. rewrite <-list_fmap_compose.
  apply Forall_fmap, Forall_forall. intros u [Hu _]%list_elem_of_filter.
  by exists u.
Qed.

Lemma pair_at_unit toks i :
  Forall unit_token toks → i < length toks - 1 →
  ∃ u v, pair_at toks i = PStr [u; v] ∧ u ≠ percent ∧ v ≠ percent.
Proof.
  intros Htoks Hi. unfold pair_at, token_at.
  destruct (lookup_lt_is_Some_2 toks i) as [a Ha]; [lia|].
  destruct (lookup_lt_is_Some_2 toks (i + 1)) as [b Hb]; [lia|].
  rewrite Ha, Hb. simpl.
  destruct (proj1 (Forall_lookup _ _) Htoks _ _ Ha) as (u & -> & Hu).
  destruct (proj1 (Forall_lookup _ _) Htoks _ _ Hb) as (v & -> & Hv).
  by exists u, v.
Qed.

Lemma inherited_pair (u v : N) : inherited [u; v] = false.
Proof. apply not_true_iff_false. intros H%inherited_length. simpl in H. lia. Qed.

Lemma count_pairs_spec toks :
  Forall unit_token toks →
  ∃ pf, count_pairs toks = (pf, pairs (length toks - 1))
    ∧ ∀ key v, (key, v) ∈ pf →
        ∃ n, v = FCount n ∧ (1 ≤ n ≤ Z.of_nat (length toks - 1))%Z
             ∧ ∃ i, i < length toks - 1 ∧ pair_at toks i = PStr key.
Proof.
  intros Htoks. unfold count_pairs.
  set (step := λ '(pairFreqs, tokenPairs) i, _).
  assert (∀ k, k ≤ length toks - 1 →
            ∃ pf, foldl step ([], []) (seq 0 k) = (pf, pairs k)
              ∧ ∀ key v, (key, v) ∈ pf →
                  ∃ n, v = FCount n ∧ (1 ≤ n ≤ Z.of_nat k)%Z
                       ∧ ∃ i, i < k ∧ pair_at toks i = PStr key) as H.
  { induction k as [|k IH]; intros Hk.
    { exists []. split; [done|]. by intros ? ? ?%elem_of_nil. }
    destruct IH as (pf & Hfold & Hpf); [lia|].
    rewrite seq_S, foldl_app, Hfold. simpl.
    destruct (pair_at_unit toks k Htoks) as (u & v & Hpair & _); [lia|].
    fold (pair_at toks k). rewrite Hpair. simpl.
    assert (counted pf) as Hcounted.
    { intros key w Hin. destruct (Hpf _ _ Hin) as (n & -> & ? & _).
      exists n. split; [done|lia]. }
    destruct (increment_elem pf [u; v] Hcounted (inherited_pair u v))
      as (n & Hn & _ & Hprev & _ & Helem).
    exists (increment pf [u; v]). split.
    { unfold pairs. by rewrite seq_S, fmap_app. }
    intros key w [[= -> ->]|Hold]%Helem.
    - exists n. split; [done|]. split; [|exists k; split; [lia|done]].
      destruct Hprev as [->|Hprev]; [lia|].
      destruct (Hpf _ _ Hprev) as (n' & [= Hn'] & ? & _). lia.
    - destruct (Hpf _ _ Hold) as (n' & -> & ? & i & ? & ?).
      exists n'. split; [done|]. split; [lia|]. exists i. split; [lia|done]. }
  destruct (H (length toks - 1)) as (pf & Hfold & Hpf); [lia|]. by exists pf.
Qed.

Lemma seed_spec pf :
  counted pf → ∃ h, seed pf = Normal h ∧ heaped h ∧ Forall (item_of pf) h.
Proof.
  intros Hpf. unfold seed.
  assert (∀ es h0, (∀ kv, kv ∈ es → kv ∈ pf) → heaped h0 → Forall (item_of pf) h0 →
            ∃ h, foldl (λ h '(pair', freq),
                          h ← h; MaxHeap.insert num_ge h (minus_val freq, PStr pair'))
                       (Normal h0) es = Normal h
                 ∧ heaped h ∧ Forall (item_of pf) h) as H.
  { induction es as [|[key v] es IH]; intros h0 Hes Hh0 Hitems; simpl; [by exists h0|].
    assert ((key, v) ∈ pf) as Hin by (apply Hes; by left).
    destruct (Hpf _ _ Hin) as (n & -> & Hn). simpl.
    destruct (heaped_insert h0 (- n) (PStr key) Hh0) as (h1 & -> & Hh1 & Hperm); [lia|].
    apply IH; [intros kv ?; apply Hes; by right|done|].
    rewrite Hperm. constructor; [by exists key, n|done]. }
  apply H; [apply entries_elem|apply heaped_nil|done].
Qed.

Lemma start_spec corpus :
  ∃ l, start corpus = Normal l
    ∧ Forall unit_token (tokens l)
    ∧ tokenPairs l = pairs (length (tokens l) - 1)
    ∧ (∀ key v, (key, v) ∈ pairFreqs l →
         ∃ n, v = FCount n ∧ (1 ≤ n ≤ Z.of_nat (length (tokens l) - 1))%Z
              ∧ ∃ i, i < length (tokens l) - 1 ∧ pair_at (tokens l) i = PStr key)
    ∧ heaped (heap l) ∧ Forall (item_of (pairFreqs l)) (heap l).
Proof.
  unfold start.
  pose proof (tokens_unit corpus) as Htoks.
  destruct (count_pairs_spec _ Htoks) as (pf & -> & Hpf).
  destruct (seed_spec pf) as (h & -> & Hh & Hitems).
  { intros key v Hin. destruct (Hpf _ _ Hin) as (n & -> & ? & _).
    exists n. split; [done|lia]. }
  simpl. eexists. split; [done|]. simpl. done.
Qed.

End Start.

Section Rescan.
Import JS BPE Spec MaxHeap.
Variables (newToken : jsstring) (m : nat) (l1 : locals).
Hypothesis newToken_length : length newToken = 2.
Hypothesis two_pairs : 2 ≤ m.
Hypothesis short_keys : ∀ key v, (key, v) ∈ pairFreqs l1 → length key = 2.

Lemma pairs_lookup j : j < m → pairs m !! j = Some (j, j + 1).
Proof.
  intros Hj. unfold pairs. rewrite list_lookup_fmap, lookup_seq_lt by done. done.
Qed.

Lemma length_pairs : length (pairs m) = m.
Proof. unfold pairs. by rewrite length_fmap, length_seq. Qed.

Lemma add_right a s : add a (Some s) = PStr (default (str "undefined") a ++ s).
Proof. by destruct a. Qed.

Lemma add_left s b : add (Some s) b = PStr (s ++ default (str "undefined") b).
Proof. by destruct b. Qed.

Lemma shape_default toks i :
  Forall (shape newToken) toks →
  default (str "undefined") (token_at toks i) = str "undefined"
  ∨ length (default (str "undefined") (token_at toks i)) ≤ 2.
Proof.
  intros Htoks. unfold token_at.
  destruct (toks !! i) as [t|] eqn:Hi; [|by left].
  destruct (proj1 (Forall_lookup _ _) Htoks _ _ Hi) as (s & -> & [Hs| ->]);
    right; simpl; lia.
Qed.

Lemma fuse_tokens toks j :
  Forall (shape newToken) toks →
  add (token_at toks j) (token_at toks (j + 1)) = PStr newToken →
  Forall (shape newToken) (splice1 (token_set toks j newToken) (j + 1))
  ∧ token_at (splice1 (token_set toks j newToken) (j + 1)) j = Some newToken.
Proof.
  intros Htoks Hadd.
  assert (j < length toks) as Hj.
  { destruct (decide (j < length toks)); [done|].
    unfold token_at in Hadd. rewrite (lookup_ge_None_2 toks j) in Hadd by lia.
    simpl in Hadd. destruct (default None (toks !! (j + 1))); [|done].
    injection Hadd as Hadd. apply (f_equal length) in Hadd.
    rewrite newToken_length in Hadd. simpl in Hadd. lia. }
  unfold token_set, splice1. rewrite bool_decide_eq_true_2 by done. split.
  - apply Forall_delete, Forall_insert; [done|]. exists newToken. eauto.
  - unfold token_at. rewrite list_lookup_delete_lt by lia.
    by rewrite list_lookup_insert_eq.
Qed.

Lemma push_spec l ntp key idx :
  counted (pairFreqs l) → heaped (heap l) →
  (∀ key v, (key, v) ∈ pairFreqs l → length key = 2) ∨ has_one (heap l) →
  inherited key = false → 3 ≤ length key →
  ∃ pf h, count_and_push l ntp (PStr key) idx
          = Normal (mkLocals (tokens l) pf (tokenPairs l) h, ntp ++ [idx])
    ∧ counted pf ∧ heaped h ∧ has_one h.
Proof.
  intros Hpf Hh Hone Hkey Hlen. unfold count_and_push. simpl key_of.
  destruct (increment_elem _ key Hpf Hkey) as (n & Hn & -> & _ & Hnew & _).
  destruct (heaped_insert (heap l) (- n) (PStr key) Hh) as (h & -> & Hh' & Hperm);
    [lia|].
  simpl. eexists _, h. split; [done|]. split; [by apply increment_counted|].
  split; [done|].
  destruct Hone as [Hshort|[pair' Hin]].
  - exists (PStr key). rewrite Hperm, Hnew; [by left|].
    intros v Hv. apply Hshort in Hv. lia.
  - exists pair'. rewrite Hperm. by right.
Qed.

Lemma neighbour_key toks i :
  Forall (shape newToken) toks →
  let x := default (str "undefined") (token_at toks i) in
  (inherited (x ++ newToken) = false ∧ 3 ≤ length (x ++ newToken))
  ∧ (inherited (newToken ++ x) = false ∧ 3 ≤ length (newToken ++ x)).
Proof.
  intros Htoks x.
  destruct (inherited_neighbour newToken x newToken_length) as [H1 H2].
  { apply shape_default, Htoks. }
  assert (1 ≤ length x).
  { subst x. unfold token_at. destruct (toks !! i) as [t|] eqn:Hi; [|simpl; lia].
    destruct (proj1 (Forall_lookup _ _) Htoks _ _ Hi) as (s & -> & [Hs| ->]);
      simpl; lia. }
  rewrite !length_app, newToken_length. repeat split; try done; lia.
Qed.

Lemma rescan_at_spec j l ntp :
  j < m → rescan_inv newToken m l → rescan_one newToken l1 j l →
  ∃ l' ntp', rescan_at newToken j (l, ntp) = Normal (l', ntp')
    ∧ rescan_inv newToken m l' ∧ rescan_one newToken l1 (S j) l'.
Proof.
  intros Hj (Htp & Htoks & Hpf & Hh) Hone. unfold rescan_at.
  rewrite Htp, pairs_lookup by done.
  case_decide as Hadd.
  2:{ eexists _, _. split; [done|]. split; [done|].
      destruct Hone as [[-> Hnot]|Hone]; [left|by right].
      split; [done|]. intros i Hi.
      destruct (decide (i = j)) as [->|]; [done|]. apply Hnot. lia. }
  destruct (fuse_tokens _ j Htoks Hadd) as [Htoks' Hleft].
  set (toks' := splice1 (token_set (tokens l) j newToken) (j + 1)) in *.
  assert ((∀ key v, (key, v) ∈ pairFreqs l → length key = 2) ∨ has_one (heap l))
    as Hfresh.
  { destruct Hone as [[-> _]|Hone]; [left; apply short_keys|by right]. }
  simpl.
  set (first := if bool_decide (0 < j) then _ else _).
  assert (∃ l0 ntp0, first = Normal (l0, ntp0)
            ∧ tokens l0 = toks' ∧ tokenPairs l0 = pairs m
            ∧ counted (pairFreqs l0) ∧ heaped (heap l0)
            ∧ ((∀ key v, (key, v) ∈ pairFreqs l0 → length key = 2)
               ∨ has_one (heap l0))
            ∧ (0 < j → has_one (heap l0)))
    as (l0 & ntp0 & -> & Htoks0 & Htp0 & Hpf0 & Hh0 & Hfresh0 & Hone0).
  { subst first. case_bool_decide.
    - rewrite pairs_lookup by lia. rewrite Hleft, add_right.
      destruct (neighbour_key toks' (j - 1) Htoks') as [[Hi Hl] _].
      destruct (push_spec (mkLocals toks' (pairFreqs l) (pairs m) (heap l)) ntp
                  _ (j - 1, j) Hpf Hh Hfresh Hi Hl) as (pf & h & -> & ? & ? & ?).
      eexists _, _. split; [done|]. simpl. repeat split; auto.
    - eexists _, _. split; [done|]. simpl. repeat split; auto. lia. }
  simpl. rewrite Htp0, Htoks0, length_pairs.
  case_bool_decide.
  - rewrite pairs_lookup by lia. rewrite Hleft, add_left.
    destruct (neighbour_key toks' (j + 1 + 1) Htoks') as [_ [Hi Hl]].
    destruct (push_spec l0 ntp0 _ (j, j + 1 + 1) Hpf0 Hh0 Hfresh0 Hi Hl)
      as (pf & h & -> & ? & ? & ?).
    eexists _, _. split; [done|]. split; [|by right].
    rewrite Htoks0, Htp0. by repeat split.
  - eexists _, _. split; [done|]. split; [|right; apply Hone0; lia].
    by repeat split; try rewrite Htoks0.
Qed.

Lemma rescan_from_spec n : ∀ j l ntp,
  j + n = m → rescan_inv newToken m l → rescan_one newToken l1 j l →
  ∃ l' ntp', rescan_from newToken j n (l, ntp) = Normal (l', ntp')
    ∧ rescan_inv newToken m l' ∧ rescan_one newToken l1 m l'.
Proof.
  induction n as [|n IH]; intros j l ntp Hjn Hinv Hone.
  { assert (j = m) as -> by lia. by exists l, ntp. }
  change (rescan_from newToken j (S n) (l, ntp))
    with (rescan_at newToken j (l, ntp) ≫= rescan_from newToken (S j) n).
  destruct (rescan_at_spec j l ntp) as (l' & ntp' & -> & Hinv' & Hone'); [lia|done..|].
  simpl. apply IH; [lia|done..].
Qed.

Lemma rescan_spec :
  rescan_inv newToken m l1 →
  (∃ i, i < m ∧ pair_at (tokens l1) i = PStr newToken) →
  ∃ l2, rescan newToken l1 = Normal l2 ∧ heaped (heap l2) ∧ has_one (heap l2).
Proof.
  intros Hinv (i & Hi & Hpair). unfold rescan.
  rewrite (proj1 Hinv), length_pairs.
  destruct (rescan_from_spec m 0 l1 []) as (l' & ntp' & -> & Hinv' & Hone');
    [lia|done|left; split; [done|lia]|].
  simpl. eexists. split; [done|]. simpl.
  split; [apply Hinv'|].
  destruct Hone' as [[_ Hnot]|Hone]; [|done]. by destruct (Hnot i Hi).
Qed.

Lemma rescan_counted :
  rescan_inv newToken m l1 →
  (∃ i, i < m ∧ pair_at (tokens l1) i = PStr newToken) →
  ∃ l2, rescan newToken l1 = Normal l2 ∧ counted (pairFreqs l2)
        ∧ heaped (heap l2) ∧ has_one (heap l2).
Proof.
  intros Hinv (i & Hi & Hpair). unfold rescan.
  rewrite (proj1 Hinv), length_pairs.
  destruct (rescan_from_spec m 0 l1 []) as (l' & ntp' & -> & Hinv' & Hone');
    [lia|done|left; split; [done|lia]|].
  simpl. eexists. split; [done|]. simpl.
  split; [apply Hinv'|]. split; [apply Hinv'|].
  destruct Hone' as [[_ Hnot]|Hone]; [|done]. by destruct (Hnot i Hi).
Qed.

End Rescan.

Section OneMerge.
Import JS BPE Spec MaxHeap.

Lemma pop_start l :
  heaped (heap l) → Forall (item_of (pairFreqs l)) (heap l) →
  (∃ l', pop l = Stop l')
  ∨ ∃ key n h,
      pop l = Merge (replace_first_percent key)
                (mkLocals (tokens l) (pairFreqs l) (tokenPairs l) h)
      ∧ (key, FCount n) ∈ pairFreqs l ∧ n ≠ 1%Z ∧ heaped h.
Proof.
  intros Hh Hitems. unfold pop.
  destruct (heap l) as [|item rest] eqn:Hheap; [left; by eexists|].
  simpl isEmpty. cbv iota.
  destruct (heaped_extractMax (item :: rest)) as (z & x & h' & -> & Hh' & Hin & _);
    [done..|].
  destruct (proj1 (Forall_forall _ _) Hitems _ Hin) as (key & n & [= -> ->] & Hkey).
  simpl. rewrite Z.opp_involutive.
  case_decide as Hn; [left; by eexists|].
  right. exists key, n, h'. repeat split; try done. congruence.
Qed.

Lemma merges_stop k l l' : pop l = Stop l' → merges k l = [].
Proof. intros H. destruct k; simpl; [done|]. by rewrite H. Qed.

(** A call of [train] merges at most one token: the heap gives the pair
    with the least frequency first, every neighbour pair the pass pushes
    after the first merge is new and has frequency one, and the loop stops
    when it pops a pair of frequency one. *)
Lemma merges_at_most_one corpus k :
  merged_tokens corpus k = []
  ∨ ∃ t, merged_tokens corpus k = [t] ∧ length t = 2.
Proof.
  unfold merged_tokens.
  destruct (start_spec corpus) as (l & -> & Htoks & Htp & Hpf & Hh & Hitems).
  destruct (Z.to_nat k) as [|n]; [by left|]. simpl.
  destruct (pop_start l Hh Hitems) as [[l' ->]|(key & c & h & -> & Hkey & Hc & Hh')];
    [by left|].
  right.
  destruct (Hpf _ _ Hkey) as (c' & [= <-] & Hrange & i & Hi & Hpair).
  destruct (pair_at_unit _ i Htoks Hi) as (u & v & Hpair' & Hu & Hv).
  assert (key = [u; v]) as -> by congruence.
  rewrite replace_first_percent_id by (by repeat constructor).
  exists [u; v]. split; [|done]. f_equal.
  set (l1 := mkLocals (tokens l) (pairFreqs l) (tokenPairs l) h).
  destruct (rescan_spec [u; v] (length (tokens l) - 1) l1) as (l2 & -> & Hh2 & Hone).
  - done.
  - lia.
  - intros key w Hin. destruct (Hpf _ _ Hin) as (_ & _ & _ & i' & Hi' & Hp).
    destruct (pair_at_unit _ i' Htoks Hi') as (u' & v' & Hp' & _).
    rewrite Hp in Hp'. by injection Hp' as ->.
  - split; [done|]. split; [|split; [|done]].
    + simpl. eapply Forall_impl; [exact Htoks|].
      intros t (w & -> & _). exists [w]. eauto.
    + intros key w Hin. destruct (Hpf _ _ Hin) as (n' & -> & ? & _).
      exists n'. split; [done|lia].
  - by exists i.
  - destruct (pop_has_one l2 Hh2 Hone) as [l' Hstop]. by apply (merges_stop n l2 l').
Qed.

End OneMerge.

Section Ids.
Import JS BPE Spec.

Lemma model_assign_fresh (m : gmap jsstring Z) t id :
  m !! t = None → t ≠ proto_key → model_assign m t id = <[t := id]> m.
Proof. intros Hm Ht. unfold model_assign. rewrite Hm. by rewrite decide_False. Qed.

Lemma model_assign_other (m : gmap jsstring Z) t id t' :
  t' ≠ t → model_assign m t id !! t' = m !! t'.
Proof.
  intros Hne. unfold model_assign.
  destruct (m !! t); [by rewrite lookup_insert_ne|].
  case_decide; [done|by rewrite lookup_insert_ne].
Qed.

Lemma model_assign_same (m : gmap jsstring Z) t id :
  model_assign m t id !! t = Some id ∨ (t = proto_key ∧ m !! t = None).
Proof.
  unfold model_assign. destruct (m !! t) eqn:Hm; [left; by rewrite lookup_insert_eq|].
  case_decide; [by right|left; by rewrite lookup_insert_eq].
Qed.

Lemma numbered_assign (m : gmap jsstring Z) t :
  numbered m → m !! t = None → t ≠ proto_key →
  numbered (model_assign m t (next_id m)).
Proof.
  intros [Hrange Huniq] Hm Ht. rewrite model_assign_fresh by done.
  unfold next_id. split.
  - intros t' id. rewrite map_size_insert_None by done.
    destruct (decide (t' = t)) as [->|Hne].
    + rewrite lookup_insert_eq. intros [= <-]. lia.
    + rewrite lookup_insert_ne by done. intros ?%Hrange. lia.
  - intros t1 t2 id.
    destruct (decide (t1 = t)) as [->|H1], (decide (t2 = t)) as [->|H2];
      rewrite ?lookup_insert_eq, ?lookup_insert_ne by done; [done|..].
    + intros [= <-] ?%Hrange. lia.
    + intros ?%Hrange [= <-]. lia.
    + apply Huniq.
Qed.

Lemma numbered_merges ts : ∀ m : gmap jsstring Z,
  numbered m → NoDup ts →
  (∀ t, t ∈ ts → m !! t = None ∧ t ≠ proto_key) →
  let m' := foldl (λ m t, model_assign m t (next_id m)) m ts in
  numbered m' ∧ size m' = size m + length ts
  ∧ ∀ t id, m !! t = Some id → m' !! t = Some id.
Proof.
  induction ts as [|t ts IH]; intros m Hm Hnd Hnew; simpl.
  { split; [done|]. split; [lia|done]. }
  apply NoDup_cons in Hnd as [Hnotin Hnd].
  destruct (Hnew t) as [Hmt Hpt]; [by left|].
  destruct (IH (model_assign m t (next_id m))) as (Hnum & Hsize & Hkeep).
  - by apply numbered_assign.
  - done.
  - intros t' Hin. destruct (Hnew t') as [? ?]; [by right|].
    split; [|done]. rewrite model_assign_other; [done|]. by intros ->.
  - split; [done|]. split.
    + rewrite Hsize, model_assign_fresh, map_size_insert_None by done. lia.
    + intros t' id Hid. apply Hkeep. rewrite model_assign_other; [done|].
      intros ->. by rewrite Hmt in Hid.
Qed.

(** C3, as amended. [train] changes the vocabulary only by assigning, to
    the token text it merges, the id [size + 1], a positive integer, for
    the size of the vocabulary at that moment; the other entries stay. A
    call merges at most one token text. When the ids are the numbers 1 to
    the size before the call and the merged text is not in the vocabulary
    already, the ids are again the numbers 1 to the size, so unique, and
    the ids from before the call are unchanged. *)
Theorem train_assigns_ids this f corpus save k :
  let o := train this f (VStr corpus) save k in
  let ts := merged_tokens corpus k in
  model (this_after o) = foldl (λ m t, model_assign m t (next_id m)) (model this) ts
  ∧ length ts ≤ 1
  ∧ (∀ (m : gmap jsstring Z) t,
       (0 < next_id m)%Z
       ∧ (model_assign m t (next_id m) !! t = Some (next_id m)
          ∨ (t = proto_key ∧ m !! t = None))
       ∧ ∀ t', t' ≠ t → model_assign m t (next_id m) !! t' = m !! t')
  ∧ (numbered (model this) → (∀ t, t ∈ ts → model this !! t = None) →
     numbered (model (this_after o))
     ∧ size (model (this_after o)) = size (model this) + length ts
     ∧ ∀ t id, model this !! t = Some id → model (this_after o) !! t = Some id).
Proof.
  intros o ts.
  assert (model (this_after o) =
          foldl (λ m t, model_assign m t (next_id m)) (model this) ts) as Hmodel.
  { rewrite <-model_add_tokens. subst o ts. rewrite <-run_this. unfold train.
    by destruct (run this corpus k) as [[l|e] this']. }
  assert (length ts ≤ 1 ∧ NoDup ts ∧ ∀ t, t ∈ ts → t ≠ proto_key)
    as (Hlen & Hnd & Hproto).
  { destruct (merges_at_most_one corpus k) as [Hts|(t & Hts & Ht)];
      fold ts in Hts; rewrite Hts.
    - split; [simpl; lia|]. split; [constructor|]. by intros t ?%elem_of_nil.
    - split; [simpl; lia|]. split; [apply NoDup_singleton|].
      intros ? ->%list_elem_of_singleton ->. by vm_compute in Ht. }
  split; [done|]. split; [done|]. split.
  - intros m t. split; [unfold next_id; lia|]. split.
    + apply model_assign_same.
    + intros t' Hne. by apply model_assign_other.
  - intros Hnum Hnew. rewrite Hmodel. apply numbered_merges; [done..|].
    intros t Ht. split; [by apply Hnew|by apply Hproto].
Qed.

Lemma train_assigns_ids_witness :
  numbered (model (this_after (train fresh None (VStr (str "aaa")) false 500))).
Proof.
  apply (train_assigns_ids fresh None (str "aaa") false 500);
    change (model fresh) with (∅ : gmap jsstring Z).
  - split; [intros t id|intros t1 t2 id]; by rewrite lookup_empty.
  - intros t _. apply lookup_empty.
Defined.

(** C3 as it is stated fails: a second call of [train] on the same corpus
    merges "aa" again and changes its id from 1 to 2. With other corpora in
    between, two token texts end with the same id. *)
Lemma train_again_changes_id :
  (model trained_once !! str "aa" = Some 1%Z
   ∧ model trained_twice !! str "aa" = Some 2%Z)
  ∧ (let this := train_on (train_on (train_on trained_once "bbb") "aaa") "ccc" in
     model this !! str "aa" = Some 3%Z ∧ model this !! str "cc" = Some 3%Z).
Proof. split; split; by vm_compute. Qed.

End Ids.

(** * Further properties *)

(** ** Lemmas *)

Section Counting.
Import JS BPE Spec MaxHeap.

Lemma own_put o key v key' :
  own (put o key v) key' = if decide (key' = key) then Some v else own o key'.
Proof.
  induction o as [|[k w] o IH]; simpl.
  { destruct (decide (key' = key)) as [->|Hne];
      [by rewrite decide_True|by rewrite decide_False]. }
  destruct (decide (k = key)) as [->|Hk]; simpl.
  - destruct (decide (key' = key)) as [->|Hne];
      [by rewrite decide_True|by rewrite !decide_False].
  - destruct (decide (k = key')) as [->|]; [by rewrite decide_False|done].
Qed.

Lemma own_None_keys o key : own o key = None ↔ key ∉ o.*1.
Proof.
  induction o as [|[k w] o IH]; simpl; [split; [intros _ ?%elem_of_nil|]; done|].
  rewrite not_elem_of_cons, <-IH.
  destruct (decide (k = key)) as [->|]; [|by intuition].
  split; [done|]. by intros [? _].
Qed.

Lemma put_keys o key v :
  (put o key v).*1 = match own o key with Some _ => o.*1 | None => o.*1 ++ [key] end.
Proof.
  induction o as [|[k w] o IH]; [done|]. cbn [put own].
  destruct (decide (k = key)) as [->|]; [done|].
  rewrite !fmap_cons, IH. by destruct (own o key).
Qed.

Lemma put_NoDup o key v : NoDup o.*1 → NoDup (put o key v).*1.
Proof.
  intros Hnd. rewrite put_keys. destruct (own o key) eqn:Hown; [done|].
  apply NoDup_app. split; [done|]. split; [|apply NoDup_singleton].
  intros k Hk ->%list_elem_of_singleton. by apply own_None_keys in Hown.
Qed.

Lemma elem_own o key v : NoDup o.*1 → (key, v) ∈ o → own o key = Some v.
Proof.
  induction o as [|[k w] o IH]; simpl; [by intros _ ?%elem_of_nil|].
  intros [Hk Hnd]%NoDup_cons [[= -> ->]|Hin]%elem_of_cons.
  - by rewrite decide_True.
  - rewrite decide_False; [by apply IH|].
    intros ->. apply Hk. apply list_elem_of_fmap. by exists (key, v).
Qed.

Lemma pair_of_units s i :
  i < length s - 1 →
  ∃ u v, pair_of s i = [u; v] ∧ s !! i = Some u ∧ s !! (i + 1) = Some v.
Proof.
  intros Hi.
  destruct (lookup_lt_is_Some_2 s i) as [u Hu]; [lia|].
  destruct (lookup_lt_is_Some_2 s (S i)) as [v Hv]; [lia|].
  exists u, v. unfold pair_of.
  rewrite (drop_S _ _ _ Hu), (drop_S _ _ _ Hv).
  split; [done|]. split; [done|]. by rewrite Nat.add_1_r.
Qed.

Lemma pair_at_pair_of s i :
  i < length s - 1 →
  pair_at (Some <$> split_units s) i = PStr (pair_of s i).
Proof.
  intros Hi. destruct (pair_of_units s i Hi) as (u & v & -> & Hu & Hv).
  unfold pair_at, token_at, split_units.
  rewrite !list_lookup_fmap, Hu, Hv. done.
Qed.

Lemma pair_keys_length key s : key ∈ pair_keys s → length key = 2.
Proof.
  unfold pair_keys. intros (i & -> & Hi)%list_elem_of_fmap.
  apply elem_of_seq in Hi. destruct (pair_of_units s i) as (u & v & -> & _); [lia|done].
Qed.

Lemma occurrences_pos key s : occurrences key s ≠ 0 ↔ key ∈ pair_keys s.
Proof.
  unfold occurrences. split.
  - intros Hn. destruct (filter _ _) as [|k l] eqn:Hf; [done|].
    assert (k ∈ filter (λ k, k = key) (pair_keys s)) as Hk by (rewrite Hf; by left).
    by apply list_elem_of_filter in Hk as [-> ?].
  - intros Hin Hn. apply length_zero_iff_nil in Hn.
    assert (key ∈ filter (λ k, k = key) (pair_keys s)) as Hk
      by (by apply list_elem_of_filter).
    rewrite Hn in Hk. by apply elem_of_nil in Hk.
Qed.

Lemma proto_key_pair (u v : N) : [u; v] ≠ proto_key.
Proof. intros H. apply (f_equal length) in H. by vm_compute in H. Qed.

Lemma increment_put o key :
  inherited key = false → key ≠ proto_key →
  (∀ v, own o key = Some v → ∃ n, v = FCount n) →
  increment o key =
    put o key (FCount (match own o key with Some (FCount n) => n + 1 | _ => 1 end)).
Proof.
  intros Hkey Hproto Hcount. unfold increment, assign, plus_one.
  destruct (own o key) as [v|] eqn:Hown.
  - by destruct (Hcount v eq_refl) as [n ->].
  - by rewrite Hkey, decide_False.
Qed.

(** The first loop of [train] counts, for every pair, the positions where
    it occurs. *)
Lemma count_pairs_occurrences s :
  ∃ pf, count_pairs (Some <$> split_units s) = (pf, pairs (length s - 1))
    ∧ NoDup pf.*1
    ∧ ∀ key, own pf key =
        if decide (occurrences key s = 0) then None
        else Some (FCount (Z.of_nat (occurrences key s))).
Proof.
  unfold count_pairs, occurrences, pair_keys.
  replace (length (Some <$> split_units s)) with (length s)
    by (unfold split_units; by rewrite !length_fmap).
  set (step := λ '(pairFreqs, tokenPairs) i, _).
  assert (∀ k, k ≤ length s - 1 →
            ∃ pf, foldl step ([], []) (seq 0 k) = (pf, pairs k)
              ∧ NoDup pf.*1
              ∧ ∀ key, own pf key =
                  if decide (length (filter (λ k', k' = key) (pair_of s <$> seq 0 k)) = 0)
                  then None
                  else Some (FCount (Z.of_nat
                         (length (filter (λ k', k' = key) (pair_of s <$> seq 0 k))))))
    as H; [|by apply H].
  induction k as [|k IH]; intros Hk.
  { exists []. split; [done|]. split; [constructor|done]. }
  destruct IH as (pf & Hfold & Hnd & Hown); [lia|].
  rewrite seq_S, foldl_app, Hfold. simpl.
  fold (pair_at (Some <$> split_units s) k). rewrite pair_at_pair_of by lia.
  destruct (pair_of_units s k) as (u & v & Hpair & _); [lia|].
  rewrite Hpair. simpl.
  rewrite increment_put; [|apply inherited_pair|apply proto_key_pair|].
  2:{ intros w. rewrite Hown. case_decide; [done|]. intros [= <-]. eauto. }
  eexists. split; [unfold pairs; by rewrite seq_S, fmap_app|].
  split; [by apply put_NoDup|].
  intros key. rewrite own_put, fmap_app, filter_app, length_app. simpl.
  rewrite Hpair, filter_cons, filter_nil.
  destruct (decide (key = [u; v])) as [->|Hne].
  - rewrite (decide_True (P := [u; v] = [u; v])) by done. simpl. rewrite Hown.
    rewrite (decide_False (P := _ + 1 = 0)) by lia.
    case_decide as Hz; do 2 f_equal; lia.
  - rewrite (decide_False (P := [u; v] = key)) by done. simpl.
    by rewrite Hown, Nat.add_0_r.
Qed.

End Counting.

Section FirstRound.
Import JS BPE Spec MaxHeap.

Lemma indexed_filter (o : freqs) :
  (omap (λ kv, i ← array_index kv.1; Some (i, kv)) o).*2
  = filter (λ kv, ¬ array_index kv.1 = None) o.
Proof.
  induction o as [|kv o IH]; [done|]. rewrite filter_cons. simpl.
  destruct (array_index kv.1); simpl; [f_equal|]; exact IH.
Qed.

Lemma entries_Permutation (o : freqs) : entries o ≡ₚ o.
Proof.
  unfold entries. rewrite merge_sort_Permutation, indexed_filter.
  rewrite (comm (++)). apply filter_app_complement.
Qed.

Lemma seed_Permutation pf :
  counted pf →
  ∃ h, seed pf = Normal h ∧ heaped h ∧ h ≡ₚ entry_item <$> pf.
Proof.
  intros Hpf. unfold seed.
  assert (∀ es h0, (∀ kv, kv ∈ es → kv ∈ pf) → heaped h0 →
            ∃ h, foldl (λ h '(pair', freq),
                          h ← h; MaxHeap.insert num_ge h (minus_val freq, PStr pair'))
                       (Normal h0) es = Normal h
                 ∧ heaped h ∧ h ≡ₚ (entry_item <$> es) ++ h0) as H.
  { induction es as [|[key v] es IH]; intros h0 Hes Hh0; simpl; [by exists h0|].
    assert ((key, v) ∈ pf) as Hin by (apply Hes; by left).
    destruct (Hpf _ _ Hin) as (n & -> & Hn). simpl.
    destruct (heaped_insert h0 (- n) (PStr key) Hh0) as (h1 & -> & Hh1 & Hperm); [lia|].
    destruct (IH h1) as (h & -> & Hh & Hperm'); [intros kv ?; apply Hes; by right|done|].
    exists h. split; [done|]. split; [done|].
    rewrite Hperm', Hperm. symmetry. apply Permutation_middle. }
  destruct (H (entries pf) []) as (h & -> & Hh & Hperm);
    [intros kv; by rewrite entries_Permutation|apply heaped_nil|].
  exists h. split; [done|]. split; [done|].
  by rewrite Hperm, (right_id_L [] (++)), entries_Permutation.
Qed.

Lemma counted_occurrences s pf :
  NoDup pf.*1 →
  (∀ key, own pf key =
     if decide (occurrences key s = 0) then None
     else Some (FCount (Z.of_nat (occurrences key s)))) →
  ∀ key v, (key, v) ∈ pf ↔
    occurrences key s ≠ 0 ∧ v = FCount (Z.of_nat (occurrences key s)).
Proof.
  intros Hnd Hown key v. split.
  - intros Hin%(elem_own _ _ _ Hnd). rewrite Hown in Hin.
    case_decide; [done|]. by injection Hin as <-.
  - intros [Hn ->]. apply own_elem. rewrite Hown. by rewrite decide_False.
Qed.

(** [train] up to the main loop: the tokens are the code units of the
    corpus without its percent signs, [pairFreqs] holds the number of
    occurrences of every pair, [tokenPairs] every position, and the heap
    one item for each entry of [pairFreqs]. *)
Lemma start_occurrences corpus :
  let s := replace_all_percent corpus in
  ∃ pf h,
    start corpus = Normal (mkLocals (Some <$> split_units s) pf
                             (pairs (length s - 1)) h)
    ∧ (∀ key v, (key, v) ∈ pf ↔
         occurrences key s ≠ 0 ∧ v = FCount (Z.of_nat (occurrences key s)))
    ∧ NoDup pf.*1 ∧ heaped h ∧ h ≡ₚ entry_item <$> pf.
Proof.
  intros s. unfold start. fold s.
  destruct (count_pairs_occurrences s) as (pf & -> & Hnd & Hown).
  pose proof (counted_occurrences s pf Hnd Hown) as Hpf.
  destruct (seed_Permutation pf) as (h & -> & Hh & Hperm).
  { intros key v [Hn ->]%Hpf. eexists. split; [done|]. lia. }
  by exists pf, h.
Qed.

Lemma pair_keys_percent corpus key :
  key ∈ pair_keys (replace_all_percent corpus) →
  length key = 2 ∧ Forall (λ u, u ≠ percent) key.
Proof.
  intros Hin. split; [by apply pair_keys_length in Hin|].
  unfold pair_keys in Hin. apply list_elem_of_fmap in Hin as (i & -> & Hi).
  apply elem_of_seq in Hi.
  destruct (pair_of_units (replace_all_percent corpus) i)
    as (u & v & -> & Hu & Hv); [lia|].
  apply list_elem_of_lookup_2 in Hu, Hv.
  apply list_elem_of_filter in Hu as [Hu _], Hv as [Hv _].
  by repeat constructor.
Qed.

Lemma occurrences_le key s : occurrences key s ≤ length s - 1.
Proof.
  unfold occurrences. etrans; [apply length_filter|].
  unfold pair_keys. by rewrite length_fmap, length_seq.
Qed.

(** The first round of the main loop, and the second. *)
Lemma first_round_state corpus :
  let s := replace_all_percent corpus in
  ∃ l, start corpus = Normal l
    ∧ counted (pairFreqs l) ∧ heaped (heap l)
    ∧ (((∃ l', pop l = Stop l')
        ∧ (pair_keys s = [] ∨ ∃ key, occurrences key s = 1))
       ∨ ∃ t l1 l2 l3,
           pop l = Merge t l1 ∧ rescan t l1 = Normal l2 ∧ pop l2 = Stop l3
           ∧ t ∈ pair_keys s ∧ 2 ≤ occurrences t s
           ∧ (∀ key, key ∈ pair_keys s → occurrences t s ≤ occurrences key s)
           ∧ counted (pairFreqs l2) ∧ heaped (heap l2)).
Proof.
  intros s.
  destruct (start_occurrences corpus) as (pf & h & Hstart & Hpf & Hnd & Hh & Hperm).
  fold s in Hstart, Hpf.
  assert (counted pf) as Hcounted.
  { intros key v [Hk ->]%Hpf. eexists. split; [done|]. lia. }
  eexists. split; [exact Hstart|]. split; [done|]. split; [done|].
  unfold pop. simpl heap.
  destruct h as [|item rest] eqn:Hheap.
  { left. split; [by eexists|]. left.
    destruct (pair_keys s) as [|key ks] eqn:Hks; [done|].
    assert (key ∈ pair_keys s) as Hkey by (rewrite Hks; by left).
    apply occurrences_pos in Hkey.
    assert ((key, FCount (Z.of_nat (occurrences key s))) ∈ pf) as Hin by (by apply Hpf).
    symmetry in Hperm. apply Permutation_nil_r in Hperm.
    apply fmap_nil_inv in Hperm. rewrite Hperm in Hin. by apply elem_of_nil in Hin. }
  rewrite <-Hheap in *. assert (h ≠ []) as Hne by (by rewrite Hheap).
  replace (isEmpty h) with false by (by rewrite Hheap).
  destruct (heaped_extractMax h Hh Hne) as (z & x & h' & -> & Hh' & Hin & _ & Hmax).
  rewrite Hperm in Hin. apply list_elem_of_fmap in Hin as ([t v] & Hitem & Hin).
  apply Hpf in Hin as [Ht ->]. injection Hitem as -> ->. simpl.
  rewrite Z.opp_involutive.
  case_decide as Hone.
  { left. split; [by eexists|]. right. exists t. injection Hone as Hone. lia. }
  right.
  assert (t ∈ pair_keys s) as Hkey by (by apply occurrences_pos).
  destruct (pair_keys_percent corpus t Hkey) as [Hlen Hpercent].
  rewrite replace_first_percent_id by done.
  assert (2 ≤ occurrences t s) as Htwo.
  { destruct (occurrences t s) as [|[|n]]; [done| |lia]. by destruct Hone. }
  pose proof (occurrences_le t s) as Hle.
  set (l1 := mkLocals _ pf _ h').
  destruct (rescan_counted t (length s - 1) l1)
    as (l2 & Hrescan & Hpf2 & Hh2 & Hone2).
  - done.
  - lia.
  - intros key v [Hk _]%Hpf. by apply occurrences_pos, pair_keys_length in Hk.
  - split; [done|]. split; [|split; [|done]].
    + simpl. unfold split_units. rewrite <-list_fmap_compose.
      apply Forall_fmap, Forall_forall. intros u _. exists [u]. eauto.
    + done.
  - unfold pair_keys in Hkey. apply list_elem_of_fmap in Hkey as (i & -> & Hi).
    apply elem_of_seq in Hi. exists i. split; [lia|]. simpl.
    apply pair_at_pair_of. lia.
  - destruct (pop_has_one l2 Hh2 Hone2) as [l3 Hstop].
    exists t, l1, l2, l3. split; [done|]. split; [done|]. split; [done|].
    split; [done|]. split; [done|]. split; [|done].
    intros key Hk%occurrences_pos.
    assert ((Num (- Z.of_nat (occurrences key s)), PStr key) ∈ h) as Hitem.
    { rewrite Hperm. apply list_elem_of_fmap.
      exists (key, FCount (Z.of_nat (occurrences key s))). split; [done|].
      by apply Hpf. }
    apply Hmax in Hitem. lia.
Qed.

Lemma first_round corpus :
  let s := replace_all_percent corpus in
  ∃ l, start corpus = Normal l
    ∧ (((∃ l', pop l = Stop l')
        ∧ (pair_keys s = [] ∨ ∃ key, occurrences key s = 1))
       ∨ ∃ t l1 l2 l3,
           pop l = Merge t l1 ∧ rescan t l1 = Normal l2 ∧ pop l2 = Stop l3
           ∧ t ∈ pair_keys s ∧ 2 ≤ occurrences t s
           ∧ ∀ key, key ∈ pair_keys s → occurrences t s ≤ occurrences key s).
Proof.
  intros s. destruct (first_round_state corpus) as (l & Hl & _ & _ & Hround).
  exists l. split; [done|].
  destruct Hround as [?|(t & l1 & l2 & l3 & ? & ? & ? & ? & ? & ? & _)]; [by left|].
  right. by exists t, l1, l2, l3.
Qed.

Lemma pop_heaped l :
  heaped (heap l) →
  match pop l with
  | Stop l' | Merge _ l' => heaped (heap l') ∧ pairFreqs l' = pairFreqs l
  | Fail _ => True
  end.
Proof.
  intros Hh. unfold pop.
  destruct (heap l) as [|item rest] eqn:Hheap; [simpl; by rewrite Hheap|].
  simpl isEmpty. cbv iota.
  destruct (heaped_extractMax (item :: rest)) as (z & x & h' & -> & Hh' & _);
    [done..|].
  case_decide; [done|]. by destruct x.
Qed.

(** The local variables at the end of the main loop. *)
Lemma run_state this corpus k :
  ∃ l, (run this corpus k).1 = Normal l ∧ counted (pairFreqs l) ∧ heaped (heap l).
Proof.
  unfold run.
  destruct (first_round_state corpus) as (l & -> & Hpf & Hh & Hround).
  destruct (Z.to_nat k) as [|n]; [by exists l|].
  simpl. unfold iteration.
  pose proof (pop_heaped l Hh) as Hpop.
  destruct Hround as [[[l' Hstop] _]|(t & l1 & l2 & l3 & Hmerge & Hrescan & Hstop & Hrest)].
  { rewrite Hstop in *. destruct Hpop as [? Hsame]. exists l'. by rewrite Hsame. }
  rewrite Hmerge, Hrescan. destruct Hrest as (_ & _ & _ & Hpf2 & Hh2).
  destruct n as [|n]; simpl; [by exists l2|].
  unfold iteration. pose proof (pop_heaped l2 Hh2) as Hpop2.
  rewrite Hstop in *. destruct Hpop2 as [? Hsame]. exists l3. by rewrite Hsame.
Qed.

End FirstRound.

Section TrainCases.
Import JS BPE Spec MaxHeap.

(** The two ways the main loop can go. *)
Lemma run_cases this corpus k :
  let s := replace_all_percent corpus in
  ((∃ l, run this corpus k = (Normal l, this))
   ∧ merged_tokens corpus k = []
   ∧ ((k ≤ 0)%Z ∨ pair_keys s = [] ∨ ∃ key, occurrences key s = 1))
  ∨ ∃ t, (∃ l, run this corpus k = (Normal l, add_token this t))
      ∧ merged_tokens corpus k = [t]
      ∧ (0 < k)%Z ∧ t ∈ pair_keys s ∧ 2 ≤ occurrences t s
      ∧ ∀ key, key ∈ pair_keys s → occurrences t s ≤ occurrences key s.
Proof.
  intros s. unfold run, merged_tokens.
  destruct (first_round corpus) as (l & -> & Hround). fold s in Hround.
  destruct (Z.to_nat k) as [|n] eqn:Hk.
  { left. split; [by eexists|]. split; [done|]. left. lia. }
  simpl. unfold iteration.
  destruct Hround as [[[l' ->] Hcond]|(t & l1 & l2 & l3 & -> & -> & Hstop & Ht)].
  { left. split; [by eexists|]. split; [done|]. by right. }
  right. exists t. split; [|split; [|split; [lia|done]]].
  - destruct n as [|n]; simpl; [by eexists|].
    unfold iteration. rewrite Hstop. by eexists.
  - f_equal. destruct n; simpl; [done|]. by rewrite Hstop.
Qed.

End TrainCases.

Section Consistent.
Import JS BPE Spec MaxHeap.
Import Trie.

Lemma insert_at_overwrite cs : ∀ node v v',
  insert_at (insert_at node cs v) cs v' = insert_at node cs v'.
Proof.
  induction cs as [|c cs IH]; intros node v v'; simpl; [done|].
  rewrite lookup_insert_eq. simpl. by rewrite insert_insert_eq, IH.
Qed.

Lemma insert_overwrite t w v v' : insert (insert t w v) w v' = insert t w v'.
Proof. unfold insert. simpl. by rewrite insert_at_overwrite. Qed.

Lemma load_trie_snoc es key id :
  load_trie (es ++ [(key, id)]) = insert (load_trie es) key (VNum id).
Proof. unfold load_trie. by rewrite foldl_app. Qed.

Lemma load_trie_insert_fresh (m : gmap jsstring Z) key id :
  m !! key = None →
  load_trie (map_to_list (<[key := id]> m))
  = insert (load_trie (map_to_list m)) key (VNum id).
Proof.
  intros Hm. rewrite <-load_trie_snoc. symmetry. apply load_trie_order.
  rewrite map_to_list_insert by done. symmetry. apply Permutation_cons_append.
Qed.

Lemma load_trie_insert (m : gmap jsstring Z) key id :
  load_trie (map_to_list (<[key := id]> m))
  = insert (load_trie (map_to_list m)) key (VNum id).
Proof.
  destruct (m !! key) as [id0|] eqn:Hm; [|by apply load_trie_insert_fresh].
  rewrite <-(insert_delete_eq m key id).
  rewrite <-(insert_delete_id m key id0) at 2 by done.
  rewrite !load_trie_insert_fresh by apply lookup_delete_eq.
  by rewrite insert_overwrite.
Qed.

Lemma new_consistent name verbose f : consistent (BPE.new name verbose f).
Proof. by destruct f. Qed.

Lemma add_token_consistent this t :
  length t = 2 → consistent this → consistent (add_token this t).
Proof.
  intros Ht Hthis. unfold consistent, add_token. cbn [trie model].
  assert (t ≠ proto_key) as Hproto.
  { intros ->. by vm_compute in Ht. }
  assert (model_assign (model this) t (next_id (model this))
          = <[t := next_id (model this)]> (model this)) as ->.
  { unfold model_assign. destruct (model this !! t); [done|]. by rewrite decide_False. }
  unfold model_read. rewrite lookup_insert_eq, Hthis. by rewrite load_trie_insert.
Qed.

Lemma train_consistent this f corpus save k :
  consistent this → consistent (this_after (train this f corpus save k)).
Proof.
  intros Hthis. destruct corpus as [| | | |corpus|]; try done.
  unfold train.
  destruct (run_cases this corpus k) as [[[l ->] _]|(t & [l ->] & _ & _ & Hkey & _)];
    [done|].
  simpl. apply add_token_consistent; [|done]. by apply pair_keys_length in Hkey.
Qed.

End Consistent.

Section TrieWords.
Import JS BPE Spec MaxHeap.
Import Trie.

Lemma lpm_terminus t w :
  w ≠ [] → terminus (root t) (chars w) = true → longestPrefixMatch t w = Some w.
Proof.
  intros Hne Hterm. unfold longestPrefixMatch. rewrite lpm_loop_longest.
  assert (1 ≤ length (chars w)) as Hcs.
  { destruct (chars w) eqn:E; [|simpl; lia]. by apply chars_nil_inv in E. }
  destruct (longest_max (root t) (chars w) (length (chars w))) as (n & Hn & Hle);
    [lia|by rewrite take_ge|].
  rewrite Hn. apply longest_Some in Hn as [[_ Hn] _].
  by rewrite take_ge, chars_concat by lia.
Qed.

Lemma lpm_extends t w rest :
  w ≠ [] → splits_pair w rest = false →
  terminus (root t) (chars w) = true →
  ∃ m, longestPrefixMatch t (w ++ rest) = Some m
       ∧ w `prefix_of` m ∧ m `prefix_of` w ++ rest.
Proof.
  intros Hne Hsplit Hterm. unfold longestPrefixMatch.
  rewrite lpm_loop_longest, chars_app by done.
  assert (1 ≤ length (chars w)) as Hcs.
  { destruct (chars w) eqn:E; [|simpl; lia]. by apply chars_nil_inv in E. }
  destruct (longest_max (root t) (chars w ++ chars rest) (length (chars w)))
    as (n & Hn & Hle).
  { rewrite length_app. lia. }
  { by rewrite take_app_length. }
  rewrite Hn. eexists. split; [done|]. simpl.
  rewrite take_app, take_ge, concat_app, chars_concat by done. split.
  - by apply prefix_app_r.
  - apply prefix_app.
    exists (concat (drop (n - length (chars w)) (chars rest))).
    by rewrite <-concat_app, take_drop, chars_concat.
Qed.

Lemma insert_terminus t w v : terminus (root (insert t w v)) (chars w) = true.
Proof.
  unfold insert. simpl. rewrite terminus_insert_at.
  by rewrite bool_decide_eq_true_2.
Qed.

Lemma load_trie_build es :
  load_trie es = build ((λ kv, (kv.1, VNum kv.2)) <$> es).
Proof.
  unfold load_trie, build. generalize Trie.new.
  induction es as [|[key id] es IH]; intros t; simpl; [done|]. apply IH.
Qed.

Lemma consistent_terminus this p :
  consistent this →
  terminus (root (trie this)) p = true ↔ ∃ w id, model this !! w = Some id ∧ chars w = p.
Proof.
  intros ->. rewrite load_trie_build, terminus_build. split.
  - intros (w & v & ([w' id] & Heq & Hin)%list_elem_of_fmap & Hw).
    simpl in Heq. injection Heq as -> ->.
    apply elem_of_map_to_list in Hin. eauto.
  - intros (w & id & Hin & Hw). exists w, (VNum id). split; [|done].
    apply list_elem_of_fmap. exists (w, id). split; [done|].
    by apply elem_of_map_to_list.
Qed.

Lemma longest_ext node1 node2 cs :
  (∀ m, 1 ≤ m ≤ length cs →
        terminus node1 (take m cs) = terminus node2 (take m cs)) →
  longest node1 cs = longest node2 cs.
Proof.
  intros Hsame.
  assert (∀ n1 n2 a, (∀ m, 1 ≤ m ≤ length cs →
                         terminus n1 (take m cs) = terminus n2 (take m cs)) →
            longest n1 cs = Some a → ∃ b, longest n2 cs = Some b ∧ a ≤ b) as Hle.
  { intros n1 n2 a Heq [Hrange Hterm]%longest_Some.
    apply longest_max; [done|]. by rewrite <-Heq. }
  destruct (longest node1 cs) as [a|] eqn:H1, (longest node2 cs) as [b|] eqn:H2.
  - destruct (Hle node1 node2 a Hsame H1) as (b' & Hb' & ?).
    destruct (Hle node2 node1 b) as (a' & Ha' & ?); [intros; symmetry; auto|done|].
    assert (b' = b) by congruence. assert (a' = a) by congruence.
    f_equal. lia.
  - destruct (Hle node1 node2 a Hsame H1) as (b' & Hb' & ?). congruence.
  - destruct (Hle node2 node1 b) as (a' & Ha' & ?); [intros; symmetry; auto|done|].
    congruence.
  - done.
Qed.

End TrieWords.

Section TokenizeSteps.
Import JS BPE Spec MaxHeap.
Import Trie.

Lemma tokenize_loop_acc fuel t data : ∀ i tokens,
  tokenize_loop fuel t data i tokens
  = (tokens ++.) <$> tokenize_loop fuel t data i [].
Proof.
  induction fuel as [|fuel IH]; intros i tokens; simpl.
  - destruct (data !! i); simpl; [done|]. by rewrite (right_id_L [] (++)).
  - destruct (data !! i) as [unit|]; simpl; [|by rewrite (right_id_L [] (++))].
    destruct (tokenize_round t data i unit) as [i' tok].
    rewrite (IH i' (tokens ++ [tok])), (IH i' [tok]).
    destruct (tokenize_loop fuel t data i' []); simpl; [|done].
    by rewrite <-(assoc_L (++)).
Qed.

Lemma tokenize_loop_shift fuel t data i : ∀ j,
  tokenize_loop fuel t data (i + j) [] = tokenize_loop fuel t (drop i data) j [].
Proof.
  induction fuel as [|fuel IH]; intros j; simpl; rewrite lookup_drop.
  - done.
  - destruct (data !! (i + j)) as [unit|]; [|done].
    unfold tokenize_round. rewrite drop_drop.
    destruct (longestPrefixMatch t (drop (i + j) data)) as [[|u us]|].
    + rewrite tokenize_loop_acc, (tokenize_loop_acc _ _ (drop i data)).
      by rewrite <-IH, (assoc_L Nat.add).
    + rewrite tokenize_loop_acc, (tokenize_loop_acc _ _ (drop i data)).
      by rewrite <-IH, (assoc_L Nat.add).
    + rewrite tokenize_loop_acc, (tokenize_loop_acc _ _ (drop i data)).
      by rewrite <-IH, (assoc_L Nat.add).
Qed.

(** [tokenize] on a string that is not empty: the first token, then the
    tokens of the rest. *)
Lemma tokenize_cons this u s :
  let tok := default [u] (longestPrefixMatch (trie this) (u :: s)) in
  tokenize this (u :: s)
  = (tok ::.) <$> tokenize this (drop (length tok) (u :: s)).
Proof.
  intros tok.
  change (tokenize this (u :: s)) with
    (let '(i', tok0) := tokenize_round (trie this) (u :: s) 0 u in
     tokenize_loop (length s) (trie this) (u :: s) i' [tok0]).
  assert (tokenize_round (trie this) (u :: s) 0 u = (length tok, tok)
          ∧ 1 ≤ length tok ≤ length (u :: s)) as [-> Hlen].
  { subst tok. unfold tokenize_round. rewrite drop_0.
    destruct (longestPrefixMatch (trie this) (u :: s)) as [m|] eqn:Hm;
      [|simpl; split; [done|lia]].
    apply longestPrefixMatch_prefix in Hm as [Hne Hpre].
    apply prefix_length in Hpre.
    destruct m as [|u' us]; [done|]. simpl in *. split; [done|lia]. }
  rewrite tokenize_loop_acc.
  pose proof (tokenize_loop_shift (length s) (trie this) (u :: s) (length tok) 0)
    as Hshift.
  rewrite Nat.add_0_r in Hshift. rewrite Hshift.
  unfold tokenize.
  destruct (tokenize_loop_spec (length (drop (length tok) (u :: s))) (trie this)
              (drop (length tok) (u :: s)) 0 []) as (toks & Hloop & _); [lia..|].
  rewrite Hloop.
  assert (length (drop (length tok) (u :: s)) ≤ length s) as Hfuel.
  { rewrite length_drop. simpl in *. lia. }
  by rewrite (tokenize_loop_mono _ (length s) _ _ _ _ _ Hfuel Hloop).
Qed.

End TokenizeSteps.

Section TokenizeWords.
Import JS BPE Spec MaxHeap.
Import Trie.

Lemma lpm_new word : longestPrefixMatch Trie.new word = None.
Proof. unfold longestPrefixMatch. by destruct (chars word). Qed.

Lemma tokenize_word this w :
  w ≠ [] → longestPrefixMatch (trie this) w = Some w → tokenize this w = Some [w].
Proof.
  intros Hne Hm. destruct w as [|u s]; [done|].
  rewrite tokenize_cons, Hm. simpl default.
  by rewrite drop_all.
Qed.

Lemma lpm_consistent this word m :
  consistent this → longestPrefixMatch (trie this) word = Some m →
  is_Some (model this !! m).
Proof.
  intros Hc (n & _ & -> & Hterm)%longestPrefixMatch_result.
  apply (consistent_terminus this _ Hc) in Hterm as (w & id & Hw & <-).
  rewrite chars_concat. eauto.
Qed.

End TokenizeWords.

Section HeapItems.
Import JS BPE Spec MaxHeap.
Context {P X : Type} (geb gtb : P → P → bool).
Implicit Types heap : list (P * X).

Lemma priority_Normal heap i item :
  heap !! i = Some item → priority heap i = Normal item.1.
Proof. unfold priority. by intros ->. Qed.

Lemma bubbleUp_Permutation index : ∀ heap,
  index < length heap →
  ∃ heap', bubbleUp geb heap index = Normal heap' ∧ heap' ≡ₚ heap.
Proof.
  induction index as [index IH] using lt_wf_ind. intros heap Hlt.
  rewrite bubbleUp_round. case_decide as Hpos; [|by exists heap].
  pose proof (parent_lt index Hpos) as Hparent.
  destruct (lookup_lt_is_Some_2 heap ((index - 1) / 2)) as [a Ha]; [lia|].
  destruct (lookup_lt_is_Some_2 heap index) as [b Hb]; [lia|].
  unfold parent_wins.
  rewrite (priority_Normal _ _ _ Ha), (priority_Normal _ _ _ Hb), !bind_Normal.
  unfold mret, completion_ret.
  destruct (geb a.1 b.1); [by exists heap|].
  rewrite (swap_Normal _ _ _ _ _ Ha Hb).
  destruct (swap_lookup heap _ _ a b Ha Hb ltac:(lia) _ eq_refl)
    as (_ & _ & _ & Hlen & Hperm).
  destruct (IH _ Hparent (<[index:=a]> (<[(index - 1) / 2:=b]> heap)))
    as (heap' & -> & Hperm'); [lia|].
  exists heap'. split; [done|]. by rewrite Hperm'.
Qed.

Lemma pick_Normal heap child largest :
  largest < length heap →
  ∃ r, pick gtb heap child largest = Normal r
       ∧ (r = largest ∨ (r = child ∧ child < length heap)).
Proof.
  intros Hl. unfold pick. case_bool_decide as Hc; [|exists largest; by split; [|left]].
  destruct (lookup_lt_is_Some_2 heap child) as [a Ha]; [lia|].
  destruct (lookup_lt_is_Some_2 heap largest) as [b Hb]; [lia|].
  rewrite (priority_Normal _ _ _ Ha), (priority_Normal _ _ _ Hb). simpl.
  destruct (gtb a.1 b.1); eexists; (split; [done|]); auto.
Qed.

Lemma bubbleDown_Permutation n : ∀ heap index,
  length heap - index = n → index < length heap →
  ∃ heap', bubbleDown gtb heap index = Normal heap' ∧ heap' ≡ₚ heap.
Proof.
  induction n as [n IH] using lt_wf_ind. intros heap index Hn Hlt.
  rewrite bubbleDown_round. unfold largest_of.
  destruct (pick_Normal heap (2 * index + 1) index Hlt) as (l & -> & Hl).
  rewrite bind_Normal.
  destruct (pick_Normal heap (2 * index + 2) l) as (r & -> & Hr); [lia|].
  case_decide as Heq; [by exists heap|].
  destruct (lookup_lt_is_Some_2 heap index) as [a Ha]; [lia|].
  destruct (lookup_lt_is_Some_2 heap r) as [b Hb]; [lia|].
  rewrite (swap_Normal _ _ _ _ _ Ha Hb).
  destruct (swap_lookup heap _ _ a b Ha Hb ltac:(lia) _ eq_refl)
    as (_ & _ & _ & Hlen & Hperm).
  destruct (IH (length heap - r) ltac:(lia) (<[r:=a]> (<[index:=b]> heap)) r)
    as (heap' & -> & Hperm'); [lia..|].
  exists heap'. split; [done|]. by rewrite Hperm'.
Qed.

Lemma insert_Permutation heap item :
  ∃ heap', insert geb heap item = Normal heap' ∧ heap' ≡ₚ item :: heap.
Proof.
  unfold insert.
  destruct (bubbleUp_Permutation (length (heap ++ [item]) - 1) (heap ++ [item]))
    as (heap' & -> & Hperm); [rewrite length_app; simpl; lia|].
  exists heap'. split; [done|]. rewrite Hperm. symmetry. apply Permutation_cons_append.
Qed.

Lemma extractMax_Permutation first rest :
  ∃ heap', extractMax gtb (first :: rest) = Normal (first, heap') ∧ heap' ≡ₚ rest.
Proof.
  unfold extractMax. cbv zeta.
  pose proof (app_removelast_last first (l:=first :: rest) ltac:(done)) as Hsplit.
  revert Hsplit.
  generalize (List.last (first :: rest) first).
  generalize (removelast (first :: rest)).
  intros [|first' popped] lst Hsplit.
  { injection Hsplit as <- ->. simpl. by exists []. }
  injection Hsplit as <- ->.
  rewrite bool_decide_eq_true_2 by (simpl; lia). simpl (<[0:=lst]> _).
  destruct (bubbleDown_Permutation (length (lst :: popped) - 0) (lst :: popped) 0)
    as (heap' & -> & Hperm); [done|simpl; lia|].
  exists heap'. split; [done|]. rewrite Hperm. apply Permutation_cons_append.
Qed.

End HeapItems.

Section TrainRounds.
Import JS BPE Spec MaxHeap.

Lemma merged_tokens_once corpus k :
  (1 ≤ k)%Z → merged_tokens corpus k = merged_tokens corpus 1.
Proof.
  intros Hk. unfold merged_tokens.
  destruct (first_round corpus) as (l & -> & Hround).
  destruct (Z.to_nat k) as [|n] eqn:Hn; [lia|].
  change (Z.to_nat 1) with 1. simpl.
  destruct Hround as [[[l' ->] _]|(t & l1 & l2 & l3 & -> & -> & Hstop & _)]; [done|].
  by rewrite (merges_stop n l2 l3).
Qed.

End TrainRounds.

Section Text.
Import JS BPE Spec MaxHeap.

Lemma count_and_push_tokens l ntp p idx l' ntp' :
  count_and_push l ntp p idx = Normal (l', ntp') →
  tokens l' = tokens l ∧ tokenPairs l' = tokenPairs l.
Proof.
  unfold count_and_push.
  destruct (MaxHeap.insert _ _ _) as [h|]; simpl; [|done]. by intros [= <- _].
Qed.

Lemma rescan_at_tokens newToken m j l ntp l' ntp' :
  tokenPairs l = pairs m → j < m →
  rescan_at newToken j (l, ntp) = Normal (l', ntp') →
  tokenPairs l' = pairs m
  ∧ (tokens l' = tokens l
     ∨ (add (token_at (tokens l) j) (token_at (tokens l) (j + 1)) = PStr newToken
        ∧ tokens l' = splice1 (token_set (tokens l) j newToken) (j + 1))).
Proof.
  intros Htp Hj. unfold rescan_at. rewrite Htp, pairs_lookup by done.
  case_decide as Hadd; [|intros [= <- _]; by split; [|left]].
  simpl.
  set (first := if bool_decide (0 < j) then _ else _).
  destruct first as [[l0 ntp0]|] eqn:Hfirst; [|done].
  assert (tokens l0 = splice1 (token_set (tokens l) j newToken) (j + 1)
          ∧ tokenPairs l0 = pairs m) as [Htoks0 Htp0].
  { subst first. case_bool_decide.
    - rewrite pairs_lookup in Hfirst by lia.
      by apply count_and_push_tokens in Hfirst as [-> ->].
    - by injection Hfirst as <- _. }
  simpl. rewrite Htp0. case_bool_decide.
  - rewrite pairs_lookup by (rewrite length_pairs in *; lia).
    intros [-> ->]%count_and_push_tokens. split; [done|]. right. by rewrite Htoks0.
  - intros [= <- _]. split; [done|]. right. by rewrite Htoks0.
Qed.

Lemma fuse_middle {A} (l1 : list A) a b x l2 :
  delete (length l1 + 1) (<[length l1 := x]> (l1 ++ a :: b :: l2)) = l1 ++ x :: l2.
Proof. induction l1 as [|y l1 IH]; simpl; [done|]. f_equal. apply IH. Qed.

Lemma fuse_segmentation newToken toks j s :
  length newToken = 2 → segmentation newToken toks s →
  add (token_at toks j) (token_at toks (j + 1)) = PStr newToken →
  segmentation newToken (splice1 (token_set toks j newToken) (j + 1)) s.
Proof.
  intros Hlen (strs & -> & Hs & Hshape) Hadd.
  unfold token_at in Hadd. rewrite !list_lookup_fmap in Hadd.
  destruct (strs !! j) as [a|] eqn:Ha; simpl in Hadd.
  2:{ rewrite (lookup_ge_None_2 strs (j + 1)) in Hadd; [done|].
      apply lookup_ge_None in Ha. lia. }
  destruct (strs !! (j + 1)) as [b|] eqn:Hb; simpl in Hadd.
  2:{ injection Hadd as Hadd. apply (f_equal length) in Hadd.
      rewrite length_app, Hlen in Hadd. simpl in Hadd. lia. }
  injection Hadd as Hadd.
  assert (strs = take j strs ++ a :: b :: drop (S (S j)) strs) as Hsplit.
  { rewrite Nat.add_1_r in Hb.
    rewrite <-(drop_S _ _ _ Hb). symmetry. by apply take_drop_middle. }
  assert (length (take j strs) = j) as Hj.
  { apply lookup_lt_Some in Ha. rewrite length_take. lia. }
  unfold token_set, splice1.
  rewrite bool_decide_eq_true_2
    by (rewrite length_fmap; by apply lookup_lt_Some in Ha).
  clear Ha Hb. revert Hsplit Hj Hs Hshape.
  generalize (take j strs) (drop (S (S j)) strs).
  intros l1 l2 -> <- Hs Hshape.
  exists (l1 ++ newToken :: l2). split; [|split].
  - rewrite <-list_fmap_insert, <-list_fmap_delete. f_equal. apply fuse_middle.
  - rewrite <-Hs, !concat_app. simpl. by rewrite <-Hadd, <-(assoc_L (++) a).
  - apply Forall_app in Hshape as [H1 H2]. apply Forall_app. split; [done|].
    apply Forall_cons in H2 as [_ H2]. apply Forall_cons in H2 as [_ H2].
    constructor; [by right|done].
Qed.

Lemma rescan_from_segmentation newToken m s n : ∀ j l ntp l' ntp',
  length newToken = 2 → j + n = m → tokenPairs l = pairs m →
  segmentation newToken (tokens l) s →
  rescan_from newToken j n (l, ntp) = Normal (l', ntp') →
  segmentation newToken (tokens l') s.
Proof.
  induction n as [|n IH]; intros j l ntp l' ntp' Hlen Hjn Htp Hseg.
  { by intros [= <- _]. }
  change (rescan_from newToken j (S n) (l, ntp))
    with (rescan_at newToken j (l, ntp) ≫= rescan_from newToken (S j) n).
  destruct (rescan_at newToken j (l, ntp)) as [[l0 ntp0]|] eqn:Hat; [|done].
  apply (rescan_at_tokens _ m) in Hat as [Htp0 Htoks0]; [|done|lia].
  simpl. apply IH; [done|lia|done|].
  destruct Htoks0 as [->|[Hadd ->]]; [done|]. by apply fuse_segmentation.
Qed.

Lemma rescan_segmentation newToken m s l l' :
  length newToken = 2 → tokenPairs l = pairs m →
  segmentation newToken (tokens l) s →
  rescan newToken l = Normal l' → segmentation newToken (tokens l') s.
Proof.
  intros Hlen Htp Hseg. unfold rescan.
  destruct (rescan_from _ _ _ _) as [[l0 ntp0]|] eqn:Hfrom; [|done].
  simpl. intros [= <-]. simpl.
  rewrite Htp, length_pairs in Hfrom.
  by eapply (rescan_from_segmentation newToken m s m 0).
Qed.

Lemma pop_tokens l :
  match pop l with
  | Stop l' | Merge _ l' => tokens l' = tokens l ∧ tokenPairs l' = tokenPairs l
  | Fail _ => True
  end.
Proof.
  unfold pop. destruct (isEmpty (heap l)); [done|].
  destruct (extractMax num_gt (heap l)) as [[[negFreq best] h]|]; [|done].
  case_decide; [done|]. by destruct best.
Qed.

Lemma units_segmentation newToken s :
  segmentation newToken (Some <$> split_units s) s.
Proof.
  exists (split_units s). split; [done|]. split.
  - induction s as [|u s IH]; simpl; [done|]. by rewrite IH.
  - unfold split_units. apply Forall_fmap, Forall_forall. intros u _. by left.
Qed.

End Text.

(** ** class Trie *)

Section TrieTheorems.
Import JS BPE Spec MaxHeap.
Import Trie.

(** X1. [insert] of a word that the trie holds already only replaces the
    value stored for it (the last write wins), and two calls of [insert]
    with different words give the same trie in either order. *)
Theorem insert_overwrites_and_commutes t w v w' v' :
  insert (insert t w v) w v' = insert t w v'
  ∧ (w ≠ w' → insert (insert t w v) w' v' = insert (insert t w' v') w v).
Proof. split; [apply insert_overwrite|apply insert_comm]. Qed.

Lemma insert_overwrites_and_commutes_witness :
  insert (insert Trie.new (str "ab") (VNum 1)) (str "ab") (VNum 2)
  = insert Trie.new (str "ab") (VNum 2)
  ∧ insert (insert Trie.new (str "ab") (VNum 1)) (str "a") (VNum 2)
    = insert (insert Trie.new (str "a") (VNum 2)) (str "ab") (VNum 1).
Proof.
  destruct (insert_overwrites_and_commutes Trie.new (str "ab") (VNum 1)
              (str "a") (VNum 2)) as [Hover Hcomm].
  split; [exact Hover|]. apply Hcomm. discriminate.
Defined.

(** X2. On the trie that holds exactly the words of [entries],
    [longestPrefixMatch(word)] returns an inserted word, not empty, whose
    characters begin those of [word] and of which every other such inserted
    word is a prefix; it returns [null] only when no inserted word but the
    empty one has its characters at the beginning of [word]. Characters
    are what [for ... of] yields. *)
Theorem longestPrefixMatch_built entries word :
  (∀ m, longestPrefixMatch (build entries) word = Some m →
     m ≠ [] ∧ (∃ v, (m, v) ∈ entries) ∧ chars m `prefix_of` chars word
     ∧ ∀ w v, (w, v) ∈ entries → chars w `prefix_of` chars word → w `prefix_of` m)
  ∧ (longestPrefixMatch (build entries) word = None →
     ∀ w v, (w, v) ∈ entries → chars w `prefix_of` chars word → w = []).
Proof.
  assert (match longestPrefixMatch (build entries) word with
          | Some m =>
              m ≠ [] ∧ (∃ v, (m, v) ∈ entries) ∧ chars m `prefix_of` chars word
              ∧ ∀ w v, (w, v) ∈ entries → chars w `prefix_of` chars word →
                       w `prefix_of` m
          | None =>
              ∀ w v, (w, v) ∈ entries → chars w `prefix_of` chars word → w = []
          end) as H.
  { assert (∀ w v, (w, v) ∈ entries → chars w `prefix_of` chars word → w ≠ [] →
              ∃ n, longest (root (build entries)) (chars word) = Some n
                   ∧ length (chars w) ≤ n) as Hmax.
    { intros w v Hin [k Hk] Hne.
      assert (1 ≤ length (chars w)) as Hcs.
      { destruct (chars w) eqn:E; [|simpl; lia]. by apply chars_nil_inv in E. }
      apply longest_max.
      - rewrite Hk, length_app. lia.
      - rewrite Hk, take_app_length. apply terminus_build. eauto. }
    destruct (longestPrefixMatch (build entries) word) as [m|] eqn:Hm.
    - pose proof (longestPrefixMatch_prefix _ _ _ Hm) as [Hne _].
      unfold longestPrefixMatch in Hm. rewrite lpm_loop_longest in Hm.
      destruct (longest _ _) as [n|] eqn:Hn; [|done]. injection Hm as <-.
      pose proof (longest_Some _ _ _ Hn) as [Hrange (w & v & Hin & Hw)%terminus_build].
      assert (concat (take n (chars word)) = w) as Hmw
        by (by rewrite <-Hw, chars_concat).
      simpl. rewrite Hmw. split; [by rewrite <-Hmw|]. split; [eauto|]. split.
      { rewrite Hw. apply prefix_take. }
      intros w' v' Hin' Hpre.
      destruct (decide (w' = [])) as [->|Hne']; [apply prefix_nil|].
      destruct (Hmax w' v' Hin' Hpre Hne') as (n' & Hn' & Hle).
      assert (n' = n) as -> by congruence.
      destruct Hpre as [k Hk].
      rewrite <-Hmw, <-(chars_concat w'), Hk.
      rewrite take_app, (take_ge (chars w')) by done. rewrite concat_app.
      by apply prefix_app_r.
    - intros w v Hin Hpre.
      destruct (decide (w = [])) as [->|Hne]; [done|].
      destruct (Hmax w v Hin Hpre Hne) as (n & Hn & _).
      unfold longestPrefixMatch in Hm. rewrite lpm_loop_longest, Hn in Hm. done. }
  destruct (longestPrefixMatch (build entries) word) as [m|]; split; try done.
  by intros m' [= <-].
Qed.

Lemma longestPrefixMatch_built_witness :
  (∃ v, (str "aa", v) ∈ [(str "aa", VNum 1); (str "a", VNum 2)])
  ∧ (∀ w v, (w, v) ∈ [(str "b", VNum 1)] →
       chars w `prefix_of` chars (str "a") → w = []).
Proof.
  split.
  - apply (proj1 (longestPrefixMatch_built
                    [(str "aa", VNum 1); (str "a", VNum 2)] (str "aaa")) (str "aa")).
    reflexivity.
  - apply (proj2 (longestPrefixMatch_built [(str "b", VNum 1)] (str "a"))).
    reflexivity.
Defined.

(** X3. The empty word is never matched: [longestPrefixMatch("")] is
    [null] on every trie, [insert("", v)] changes no result of
    [longestPrefixMatch], and a vocabulary file with an entry for the
    empty token text gives an engine that tokenizes as without it. *)
Theorem empty_word_never_matched (t : Trie) (v : JS.value) (word : jsstring)
    (name : jsstring) (verbose : bool) (m : gmap jsstring Z) (id : Z)
    (s : jsstring) :
  longestPrefixMatch t [] = None
  ∧ longestPrefixMatch (insert t [] v) word = longestPrefixMatch t word
  ∧ tokenize (BPE.new name verbose (Some (<[[] := id]> m))) s
    = tokenize (BPE.new name verbose (Some m)) s.
Proof.
  assert (∀ t v word,
            longestPrefixMatch (insert t [] v) word = longestPrefixMatch t word)
    as Hsame.
  { intros t0 v0 word0. unfold longestPrefixMatch, insert. simpl.
    by destruct (chars word0). }
  split; [done|]. split; [apply Hsame|].
  assert (∀ t0 v0 fuel i toks,
            tokenize_loop fuel (insert t0 [] v0) s i toks
            = tokenize_loop fuel t0 s i toks) as Hloop.
  { intros t0 v0 fuel. induction fuel as [|fuel IH]; intros i toks; simpl; [done|].
    destruct (s !! i) as [unit|]; [|done].
    unfold tokenize_round. rewrite Hsame.
    destruct (longestPrefixMatch t0 (drop i s)) as [[|u us]|]; apply IH. }
  unfold tokenize, BPE.new. cbn [_load_vocabulary trie].
  rewrite load_trie_insert. apply Hloop.
Qed.

(** X4. After [insert(w, v)] into any trie, for a word [w] that is not
    empty, [longestPrefixMatch(w)] returns [w], and on a text [w + rest]
    whose boundary is not inside a surrogate pair it returns a prefix of
    the text that begins with [w]. *)
Theorem longestPrefixMatch_after_insert t w v rest :
  w ≠ [] → splits_pair w rest = false →
  (∃ m, longestPrefixMatch (insert t w v) (w ++ rest) = Some m
        ∧ w `prefix_of` m ∧ m `prefix_of` w ++ rest)
  ∧ longestPrefixMatch (insert t w v) w = Some w.
Proof.
  intros Hne Hsplit. split.
  - apply lpm_extends; [done..|apply insert_terminus].
  - apply lpm_terminus; [done|apply insert_terminus].
Qed.

Lemma longestPrefixMatch_after_insert_witness :
  longestPrefixMatch (insert (insert Trie.new (str "abc") VNull) (str "ab") VNull)
    (str "ab") = Some (str "ab").
Proof.
  apply (longestPrefixMatch_after_insert _ (str "ab") VNull []); [done|reflexivity].
Defined.

(** X21. [insert(w, v)] changes the result of [longestPrefixMatch] only
    on texts that begin with the characters of [w]: on every other text
    the result is the one from before the call. *)
Theorem insert_keeps_other_matches t w v word :
  ¬ chars w `prefix_of` chars word →
  longestPrefixMatch (insert t w v) word = longestPrefixMatch t word.
Proof.
  intros Hpre. unfold longestPrefixMatch. rewrite !lpm_loop_longest.
  rewrite (longest_ext (root (insert t w v)) (root t)); [done|].
  intros m Hm. unfold insert. simpl. rewrite terminus_insert_at.
  rewrite bool_decide_eq_false_2; [done|].
  intros Heq. apply Hpre. rewrite <-Heq. apply prefix_take.
Qed.

Lemma insert_keeps_other_matches_witness :
  longestPrefixMatch (insert (insert Trie.new (str "a") VNull) (str "ab") VNull)
    (str "ac")
  = longestPrefixMatch (insert Trie.new (str "a") VNull) (str "ac").
Proof.
  apply insert_keeps_other_matches.
  intros [k Hk]. discriminate Hk.
Defined.

End TrieTheorems.

(** ** tokenize *)

Section TokenizeTheorems.
Import JS BPE Spec MaxHeap.
Import Trie.

(** X5. [tokenize] is greedy from the left: on a string that is not
    empty the first token is the result of [longestPrefixMatch] on the
    whole string, or the first code unit when that is [null], and the
    other tokens are those of [tokenize] on the rest of the string. *)
Theorem tokenize_first_token this u s :
  let tok := default [u] (longestPrefixMatch (trie this) (u :: s)) in
  tokenize this (u :: s)
  = (tok ::.) <$> tokenize this (drop (length tok) (u :: s)).
Proof. apply tokenize_cons. Qed.

(** X6. An engine made without a vocabulary file, or from an empty
    vocabulary, tokenizes a string into its code units. *)
Theorem tokenize_empty_vocabulary name verbose s :
  tokenize (BPE.new name verbose None) s = Some (split_units s)
  ∧ tokenize (BPE.new name verbose (Some ∅)) s = Some (split_units s).
Proof.
  assert (∀ this, trie this = Trie.new → tokenize this s = Some (split_units s))
    as H; [|split; by apply H].
  intros this Ht. induction s as [|u s IH]; [done|].
  rewrite tokenize_cons, Ht, lpm_new. simpl. rewrite drop_0, IH. done.
Qed.

(** X7. When the trie holds the words of the vocabulary, every token
    that [tokenize] returns is a token text of the vocabulary or a single
    code unit, no token is empty, and there are at most as many tokens as
    code units. *)
Theorem tokenize_tokens this s toks :
  consistent this → tokenize this s = Some toks →
  Forall (λ tok, is_Some (model this !! tok) ∨ ∃ u, tok = [u]) toks
  ∧ Forall (λ tok, tok ≠ []) toks ∧ length toks ≤ length s.
Proof.
  intros Hc. revert toks. remember (length s) as n eqn:Hn. revert s Hn.
  induction n as [n IH] using lt_wf_ind. intros [|u s] -> toks.
  { intros [= <-]. split; [done|]. split; [done|]. simpl. lia. }
  rewrite tokenize_cons.
  set (tok := default _ _).
  assert (tok ≠ [] ∧ (is_Some (model this !! tok) ∨ ∃ u, tok = [u])
          ∧ 1 ≤ length tok) as (Hne & Htok & Hlen).
  { subst tok. destruct (longestPrefixMatch (trie this) (u :: s)) as [m|] eqn:Hm; simpl.
    - pose proof (longestPrefixMatch_prefix _ _ _ Hm) as [Hne _].
      split; [done|]. split; [left; by eapply lpm_consistent|].
      destruct m; [done|simpl; lia].
    - split; [done|]. split; [right; eauto|lia]. }
  destruct (tokenize this (drop (length tok) (u :: s))) as [rest|] eqn:Hrest; [|done].
  intros [= <-].
  destruct (IH (length (drop (length tok) (u :: s)))) with
    (s := drop (length tok) (u :: s)) (toks := rest) as (H1 & H2 & H3);
    [rewrite length_drop; simpl; lia|done|done|].
  split; [by constructor|]. split; [by constructor|].
  rewrite length_drop in H3. simpl in *. lia.
Qed.

Lemma tokenize_tokens_witness :
  let this := BPE.new [] false (Some {[str "aa" := 1%Z]}) in
  Forall (λ tok, is_Some (model this !! tok) ∨ ∃ u, tok = [u])
    [str "aa"; str "a"].
Proof.
  intros this.
  apply (tokenize_tokens this (str "aaa") [str "aa"; str "a"]).
  - apply new_consistent.
  - by vm_compute.
Defined.

(** X8. When the trie holds the words of the vocabulary, as after the
    constructor, [tokenize] on a token text of the vocabulary that is not
    empty returns that text as the only token. *)
Theorem tokenize_vocabulary_word this w id :
  consistent this → model this !! w = Some id → w ≠ [] →
  tokenize this w = Some [w].
Proof.
  intros Hc Hw Hne. apply tokenize_word; [done|].
  apply lpm_terminus; [done|]. apply consistent_terminus; eauto.
Qed.

Lemma tokenize_vocabulary_word_witness :
  tokenize (BPE.new [] false (Some {[str "aa" := 1%Z]})) (str "aa")
  = Some [str "aa"].
Proof.
  apply (tokenize_vocabulary_word _ _ 1%Z).
  - apply new_consistent.
  - by vm_compute.
  - done.
Defined.

End TokenizeTheorems.

(** ** class MaxHeap *)

Section HeapTheorems.
Import JS BPE Spec MaxHeap.

(** X9. For items [[priority, payload]] with priorities of any kind on
    which [>=] and [>] give a boolean (numbers, [NaN] among them, or
    strings), whether the array is ordered or not: [insert] returns and
    the array then holds the items it held and the new one; [extractMax]
    on an empty heap throws "Heap is empty"; on a heap that is not empty
    it returns the first item of the array and leaves the other items,
    none lost and none twice. *)
Theorem heap_keeps_items {P X : Type} (geb gtb : P → P → bool)
    (heap : list (P * X)) item :
  (∃ heap', insert geb heap item = Normal heap' ∧ heap' ≡ₚ item :: heap)
  ∧ (isEmpty heap = true →
     extractMax gtb heap = Throw (Error (str "Heap is empty")))
  ∧ (isEmpty heap = false →
     ∃ first heap', heap !! 0 = Some first
       ∧ extractMax gtb heap = Normal (first, heap')
       ∧ first :: heap' ≡ₚ heap).
Proof.
  split; [apply insert_Permutation|].
  destruct heap as [|first rest]; split; try done.
  intros _. destruct (extractMax_Permutation gtb first rest) as (heap' & -> & Hperm).
  exists first, heap'. split; [done|]. split; [done|]. by rewrite Hperm.
Qed.

Lemma heap_keeps_items_witness :
  extractMax num_gt ([] : list (jsnum * nat)) = Throw (Error (str "Heap is empty"))
  ∧ ∃ first heap', [(NaN, 1); (Num 3, 2)] !! 0 = Some first
      ∧ extractMax num_gt [(NaN, 1); (Num 3, 2)] = Normal (first, heap')
      ∧ first :: heap' ≡ₚ [(NaN, 1); (Num 3, 2)].
Proof.
  split.
  - by apply (heap_keeps_items num_ge num_gt [] (NaN, 0)).
  - by apply (heap_keeps_items num_ge num_gt [(NaN, 1); (Num 3, 2)] (NaN, 0)).
Defined.

End HeapTheorems.

(** ** train *)

Section TrainTheorems.
Import JS BPE Spec MaxHeap.

(** X10. [train] up to its main loop: the tokens are the code units of
    the corpus without its percent signs; [pairFreqs] has one entry for
    each pair of adjacent code units that occurs, with the number of
    positions where it occurs; [tokenPairs] holds every position; and the
    heap is ordered and holds one item, the negated count and the pair,
    for each entry of [pairFreqs]. *)
Theorem start_counts_pairs corpus :
  let s := replace_all_percent corpus in
  ∃ pf h,
    start corpus = Normal (mkLocals (Some <$> split_units s) pf
                             (pairs (length s - 1)) h)
    ∧ (∀ key v, (key, v) ∈ pf ↔
         occurrences key s ≠ 0 ∧ v = FCount (Z.of_nat (occurrences key s)))
    ∧ NoDup pf.*1 ∧ heap_ordered num_ge h ∧ h ≡ₚ entry_item <$> pf.
Proof.
  intros s.
  destruct (start_occurrences corpus) as (pf & h & H1 & H2 & H3 & Hh & H4).
  exists pf, h. split_and!; try done.
  destruct Hh as (hz & -> & Hord & _).
  by apply (heap_ordered_embed Num int_ge).
Qed.


(** X12. What [train] merges. The heap holds negated counts, so the
    first pair popped is one that occurs least often. When [k] is not
    positive, or the corpus without percent signs has no pair, or some
    pair occurs exactly once, the engine is unchanged. Otherwise exactly
    one token is added: a pair of the corpus that occurs at least twice
    and no more often than any other pair. *)
Theorem train_merges_least_frequent this f corpus save k :
  let s := replace_all_percent corpus in
  let o := train this f (VStr corpus) save k in
  (this_after o = this
   ∧ ((k ≤ 0)%Z ∨ pair_keys s = [] ∨ ∃ key, occurrences key s = 1))
  ∨ ∃ t, this_after o = add_token this t
      ∧ (0 < k)%Z ∧ t ∈ pair_keys s ∧ 2 ≤ occurrences t s
      ∧ ∀ key, key ∈ pair_keys s → occurrences t s ≤ occurrences key s.
Proof.
  unfold train.
  destruct (run_cases this corpus k) as [[[l ->] [_ H]]|(t & [l ->] & _ & H)].
  - by left.
  - right. by exists t.
Qed.

(** X13. The number of rounds does not matter beyond the first: for
    every integer [k >= 1], [train] returns and leaves what it does for
    [k = 1]. *)
Theorem train_rounds_irrelevant this f corpus save k :
  (1 ≤ k)%Z → train this f corpus save k = train this f corpus save 1.
Proof.
  intros Hk. destruct corpus as [| | | |corpus|]; try done.
  destruct (run_cases this corpus k) as [[[l Hl] _]|(t & [l Hl] & _)],
    (run_cases this corpus 1) as [[[l' Hl'] _]|(t' & [l' Hl'] & _)];
    rewrite (train_returns this f corpus save k l) by (by rewrite Hl);
    rewrite (train_returns this f corpus save 1 l') by (by rewrite Hl');
    by rewrite (merged_tokens_once corpus k).
Qed.

Lemma train_rounds_irrelevant_witness :
  train fresh None (VStr (str "aaa")) false 500
  = train fresh None (VStr (str "aaa")) false 1.
Proof.
  apply (train_rounds_irrelevant fresh None (VStr (str "aaa")) false 500). lia.
Defined.

(** X14. Percent signs in the corpus are ignored: [train] does on a
    corpus what it does on the corpus without them, and no token it
    merges contains one. *)
Theorem train_ignores_percent this f corpus save k :
  train this f (VStr corpus) save k
  = train this f (VStr (replace_all_percent corpus)) save k
  ∧ ∀ t, t ∈ merged_tokens corpus k → percent ∉ t.
Proof.
  split.
  - unfold train, run, start, replace_all_percent.
    by rewrite list_filter_filter_r.
  - intros t Ht.
    destruct (run_cases fresh corpus k) as [(_ & Hm & _)|(t' & _ & Hm & _ & Hkey & _)];
      rewrite Hm in Ht; [by apply elem_of_nil in Ht|].
    apply list_elem_of_singleton in Ht as ->.
    apply pair_keys_percent in Hkey as [_ Hkey].
    intros Hin. by apply (proj1 (Forall_forall _ _) Hkey) in Hin.
Qed.

(** X15. [train] never changes the fields [model_name], [verbose] and
    [trained] of the engine, whatever its arguments are: an engine made
    without a vocabulary file still has [trained] false after training. *)
Theorem train_keeps_fields this f corpus save k :
  let o := train this f corpus save k in
  model_name (this_after o) = model_name this
  ∧ verbose (this_after o) = verbose this
  ∧ trained (this_after o) = trained this.
Proof.
  assert (∀ ts this, let this' := foldl add_token this ts in
            model_name this' = model_name this ∧ verbose this' = verbose this
            ∧ trained this' = trained this) as H.
  { induction ts as [|t ts IH]; intros this0; simpl; [done|].
    by destruct (IH (add_token this0 t)) as (-> & -> & ->). }
  destruct corpus as [| | | |corpus|]; try done.
  simpl. specialize (H (merged_tokens corpus k) this). rewrite <-run_this in H.
  unfold train. by destruct (run this corpus k) as [[l|e] this'].
Qed.

(** X16. [train] keeps the trie and the vocabulary together: when the
    trie holds the words of the vocabulary with their ids before the call,
    as after the constructor, it does so after the call. *)
Theorem train_keeps_trie this f corpus save k :
  consistent this → consistent (this_after (train this f corpus save k)).
Proof. apply train_consistent. Qed.

Lemma train_keeps_trie_witness :
  consistent (this_after (train fresh None (VStr (str "aaa")) false 500)).
Proof.
  apply (train_keeps_trie fresh None (VStr (str "aaa")) false 500). reflexivity.
Defined.

(** X17. Saving and loading: after [train] with [save] set on an engine
    that the constructor made, the constructor on the file written makes
    an engine with the same vocabulary and the same trie, and with
    [trained] true. *)
Theorem train_save_reload name verbose f corpus k :
  let this := BPE.new name verbose f in
  let o := train this f (VStr corpus) true k in
  BPE.new name verbose (file_after o)
  = mkBPE name verbose true (model (this_after o)) (trie (this_after o)).
Proof.
  intros this o.
  pose proof (train_consistent this f (VStr corpus) true k
                (new_consistent name verbose f)) as Hc.
  fold o in Hc. unfold consistent in Hc. rewrite Hc.
  assert (file_after o = Some (model (this_after o))) as ->; [|done].
  subst o. unfold train.
  by destruct (run_cases this corpus k) as [[[l ->] _]|(t & [l ->] & _)].
Qed.

(** X18. A token that [train] has merged is recognized afterwards:
    [tokenize] on its text returns it as the only token, on every engine. *)
Theorem tokenize_merged_token this f corpus save k t :
  t ∈ merged_tokens corpus k →
  tokenize (this_after (train this f (VStr corpus) save k)) t = Some [t].
Proof.
  intros Ht. unfold train.
  destruct (run_cases this corpus k) as [(_ & Hm & _)|(t' & [l ->] & Hm & _ & Hkey & _)];
    rewrite Hm in Ht; [by apply elem_of_nil in Ht|].
  apply list_elem_of_singleton in Ht as ->. cbn [this_after].
  assert (t' ≠ []) as Hne.
  { apply pair_keys_length in Hkey. by destruct t'. }
  apply tokenize_word; [done|]. apply lpm_terminus; [done|].
  apply insert_terminus.
Qed.

Lemma tokenize_merged_token_witness :
  tokenize (this_after (train fresh None (VStr (str "aaa")) false 500)) (str "aa")
  = Some [str "aa"].
Proof.
  apply (tokenize_merged_token fresh None (str "aaa") false 500).
  vm_compute. by left.
Defined.

(** X19. The main loop keeps the text: when it ends, every element of
    [tokens] is a string, one code unit or the merged token, and their
    concatenation is the corpus without its percent signs. *)
Theorem train_keeps_text this corpus k :
  ∃ l strs,
    (run this corpus k).1 = Normal l
    ∧ tokens l = Some <$> strs
    ∧ concat strs = replace_all_percent corpus
    ∧ Forall (λ x, length x = 1 ∨ x ∈ merged_tokens corpus k) strs.
Proof.
  set (s := replace_all_percent corpus).
  assert (∀ (ts : list jsstring) t l,
            segmentation t (tokens l) s → (t ∈ ts ∨ length t = 1) →
            ∃ strs, tokens l = Some <$> strs ∧ concat strs = s
              ∧ Forall (λ x, length x = 1 ∨ x ∈ ts) strs)
    as Hend.
  { intros ts t l (strs & ? & ? & Hshape) Ht. exists strs. split; [done|]. split; [done|].
    apply Forall_forall. intros x Hx.
    destruct (proj1 (Forall_forall _ _) Hshape x Hx) as [?| ->]; [by left|].
    destruct Ht as [?|?]; [by right|by left]. }
  unfold run, merged_tokens.
  destruct (start_occurrences corpus) as (pf & h & Hstart & _).
  destruct (first_round corpus) as (l & Hl & Hround).
  rewrite Hstart in Hl |- *. injection Hl as <-. fold s in Hround.
  set (l0 := mkLocals _ pf _ h) in *.
  destruct (Z.to_nat k) as [|n].
  { destruct (Hend [] [0%N] l0) as (strs & H1 & H2 & H3);
      [apply units_segmentation|by right|].
    by exists l0, strs. }
  simpl. unfold iteration.
  pose proof (pop_tokens l0) as Hpop.
  destruct Hround as [[[l' Hstop] _]|(t & l1 & l2 & l3 & Hmerge & Hrescan & Hstop & Hkey & _)].
  { rewrite Hstop in *. destruct Hpop as [Htoks _].
    destruct (Hend [] [0%N] l') as (strs & H1 & H2 & H3);
      [rewrite Htoks; apply units_segmentation|by right|].
    by exists l', strs. }
  rewrite Hmerge in *. rewrite Hrescan in *. destruct Hpop as [Htoks Htp].
  assert (segmentation t (tokens l2) s) as Hseg.
  { apply (rescan_segmentation t (length s - 1) s l1 l2); [|done| |done].
    - by apply pair_keys_length in Hkey.
    - rewrite Htoks. apply units_segmentation. }
  pose proof (pop_tokens l2) as Hpop2. rewrite Hstop in Hpop2.
  destruct n as [|n]; simpl.
  - destruct (Hend [t] t l2) as (strs & H1 & H2 & H3); [done|left; by left|].
    by exists l2, strs.
  - unfold iteration. rewrite Hstop. simpl.
    destruct (Hend [t] t l3) as (strs & H1 & H2 & H3);
      [by rewrite (proj1 Hpop2)|left; by left|].
    by exists l3, strs.
Qed.

(** X20. The main loop keeps its tables in order: when it ends, every
    value of [pairFreqs] is a count of at least one (no name inherited
    from [Object.prototype] is ever read as a count, so there is no [NaN]
    and no string), and the heap satisfies the heap invariant with every
    priority the negation of such a count. *)
Theorem train_keeps_counts this corpus k :
  ∃ l, (run this corpus k).1 = Normal l
    ∧ (∀ key v, (key, v) ∈ pairFreqs l → ∃ n, v = FCount n ∧ (1 ≤ n)%Z)
    ∧ heap_ordered num_ge (heap l)
    ∧ Forall (λ item, ∃ n, item.1 = Num (- n) ∧ (1 ≤ n)%Z) (heap l).
Proof.
  destruct (run_state this corpus k) as (l & Hl & Hpf & hz & Hheap & Hord & Hneg).
  exists l. split; [done|]. split; [done|]. rewrite Hheap. split.
  - by apply (heap_ordered_embed Num int_ge).
  - apply Forall_fmap. eapply Forall_impl; [exact Hneg|].
    intros [z x] Hz. simpl in *. exists (- z)%Z. split; [|lia].
    by rewrite Z.opp_involutive.
Qed.

End TrainTheorems.
